(** * validates: the addressable error tree

    A shallow embedding of [tree/path.go] (the [Path] string algebra), of the
    [ErrorNode] tree and of the cursor scoping of [issers.Is], together with
    the properties of the specification that were checked against them.

    Conventions of the embedding:
    - a Go [string] is its sequence of bytes, [list ascii];
    - a Go [int] is a [Z]; where the source does arithmetic that can leave
      the 64-bit range the wrap-around is written out with [int_wrap];
    - a function of the source that can panic returns an [option], [None]
      being the panic;
    - a Go map that may be [nil] is an [option (gmap K V)]. *)

From Stdlib Require Import ZArith Ascii String DecimalString DecimalZ.
From stdpp Require Import gmap strings list fin_maps.

Local Open Scope Z_scope.

(** ** Go strings *)

Abbreviation gostring := (list ascii).

(** [str "abc"] is the Go string literal ["abc"]. *)
Definition str (s : string) : gostring := list_ascii_of_string s.

Definition len (s : gostring) : Z := Z.of_nat (length s).

(** The three bytes the path grammar reserves. *)
Definition slash : ascii := "/"%char.
Definition lbrack : ascii := "["%char.
Definition rbrack : ascii := "]"%char.

(** [s[lo:hi]] on a string; Go panics unless [0 <= lo <= hi <= len(s)]. *)
Definition slice (s : gostring) (lo hi : Z) : option gostring :=
  if bool_decide (0 <= lo /\ lo <= hi /\ hi <= len s)
  then Some (take (Z.to_nat (hi - lo)) (drop (Z.to_nat lo) s))
  else None.

(** ** The parts of package [strings], [strconv] and [fmt] that path.go uses.

    Every call site of [Split], [Count], [Index] and [LastIndex] passes a
    one-byte separator (["/"], ["["] or ["]"]), so the separator is a byte. *)
Module strings.

(** [strings.HasPrefix(s, prefix)] *)
Fixpoint HasPrefix (s prefix : gostring) {struct prefix} : bool :=
  match prefix, s with
  | [], _ => true
  | _ :: _, [] => false
  | c :: prefix', d :: s' => bool_decide (c = d) && HasPrefix s' prefix'
  end.

(** [strings.Split(s, sep)]: the pieces of [s] between the occurrences of
    [sep]; a string without [sep] (also the empty one) is its own single
    piece. *)
Fixpoint Split (s : gostring) (sep : ascii) : list gostring :=
  match s with
  | [] => [[]]
  | c :: s' =>
      if bool_decide (c = sep) then [] :: Split s' sep
      else match Split s' sep with
           | [] => [[c]]
           | part :: parts => (c :: part) :: parts
           end
  end.

(** [strings.Join(elems, sep)] *)
Fixpoint Join (elems : list gostring) (sep : gostring) : gostring :=
  match elems with
  | [] => []
  | [e] => e
  | e :: rest => e ++ sep ++ Join rest sep
  end.

(** [strings.Count(s, sep)] for a one-byte [sep]. *)
Fixpoint Count (s : gostring) (sep : ascii) : Z :=
  match s with
  | [] => 0
  | c :: s' => (if bool_decide (c = sep) then 1 else 0) + Count s' sep
  end.

(** [strings.Index(s, sep)]: position of the first [sep], or -1. *)
Fixpoint Index (s : gostring) (sep : ascii) : Z :=
  match s with
  | [] => -1
  | c :: s' =>
      if bool_decide (c = sep) then 0
      else let r := Index s' sep in if bool_decide (r = -1) then -1 else 1 + r
  end.

(** [strings.LastIndex(s, sep)]: position of the last [sep], or -1. *)
Fixpoint LastIndex (s : gostring) (sep : ascii) : Z :=
  match s with
  | [] => -1
  | c :: s' =>
      let r := LastIndex s' sep in
      if bool_decide (r = -1) then (if bool_decide (c = sep) then 0 else -1)
      else 1 + r
  end.

(** [strings.ContainsAny(s, chars)] for ASCII [chars]: some byte of [s] is
    one of [chars]. *)
Definition ContainsAny (s chars : gostring) : bool :=
  existsb (fun c => bool_decide (c ∈ chars)) s.

End strings.

Module strconv.

Definition maxInt : Z := 2 ^ 63 - 1.
Definition minInt : Z := - 2 ^ 63.

Definition digit (c : ascii) : option Z :=
  let n := Z.of_N (N_of_ascii c) in
  if bool_decide (48 <= n /\ n <= 57) then Some (n - 48) else None.

Fixpoint digits (s : gostring) (acc : Z) : option Z :=
  match s with
  | [] => Some acc
  | c :: s' =>
      match digit c with
      | Some d => digits s' (10 * acc + d)
      | None => None
      end
  end.

(** [strconv.Atoi(s)]: the value and whether [err == nil].  A syntax error
    gives 0; a value out of the range of [int] gives the nearest bound. *)
Definition Atoi (s : gostring) : Z * bool :=
  let '(neg, body) :=
    match s with
    | c :: s' =>
        if bool_decide (c = "-"%char) then (true, s')
        else if bool_decide (c = "+"%char) then (false, s')
        else (false, s)
    | [] => (false, [])
    end in
  match body with
  | [] => (0, false)
  | _ =>
      match digits body 0 with
      | None => (0, false)
      | Some v =>
          let v := if neg then - v else v in
          if bool_decide (v < minInt) then (minInt, false)
          else if bool_decide (maxInt < v) then (maxInt, false)
          else (v, true)
      end
  end.

End strconv.

Module fmt.

(** The verb [%d] of [fmt.Sprintf] on an [int]. *)
Definition d (i : Z) : gostring :=
  list_ascii_of_string (NilZero.string_of_int (Z.to_int i)).

End fmt.

(** ** tree/path.go *)

(** [type Path string] *)
Abbreviation Path := (list ascii) (only parsing).

(** [var PathSeparator = "/"] *)
Definition PathSeparator : gostring := [slash].

(** [s[lo:hi]] on a slice of strings. *)
Definition slice_parts (parts : list gostring) (lo hi : nat) : list gostring :=
  take (hi - lo) (drop lo parts).

(** [parts[len(parts)-1]] of a [strings.Split] result, which is never
    empty. *)
Definition lastPart (p : Path) : gostring :=
  List.last (strings.Split p slash) [].

Definition NewPath : Path := PathSeparator.

Definition String (p : Path) : gostring := p.

Definition IsEqual (p op : Path) : bool := bool_decide (p = op).

Definition IsRoot (p : Path) : bool := bool_decide (p = PathSeparator).

Definition IsAbsolute (p : Path) : bool := strings.HasPrefix p PathSeparator.

Definition IsArrayElement (p : Path) : bool :=
  if IsRoot p then false
  else negb (bool_decide (strings.Index (lastPart p) lbrack = -1)).

Definition isValidFieldName (fieldName : gostring) : bool :=
  let forbiddenRunes := [lbrack; rbrack] ++ PathSeparator in
  negb (strings.ContainsAny fieldName forbiddenRunes).

(** [Up]: both slice expressions of the source stay in bounds (lemmas
    [Up_index_in_bounds] and [Up_parts_in_bounds] below), so [Up] never
    panics and is a total function. *)
Definition Up (p : Path) : Path :=
  if IsRoot p then p
  else if IsArrayElement p then
    let index := strings.LastIndex p lbrack in
    take (Z.to_nat index) p
  else
    let parts := strings.Split p slash in
    if IsAbsolute p then
      slash :: strings.Join (slice_parts parts 1 (length parts - 1)) PathSeparator
    else
      strings.Join (slice_parts parts 0 (length parts - 1)) PathSeparator.

(** [DownField] panics on an invalid field name. *)
Definition DownField (p : Path) (fieldName : gostring) : option Path :=
  if negb (isValidFieldName fieldName) then None
  else if IsAbsolute p && IsRoot p then Some (p ++ fieldName)
  else Some (p ++ PathSeparator ++ fieldName).

Definition DownIndex (p : Path) (index : Z) : Path :=
  p ++ [lbrack] ++ fmt.d index ++ [rbrack].

(** [Index]: the offsets are computed in the last part and then used to cut
    the whole path, as the source does; the cut can be out of bounds. *)
Definition Index (p : Path) : option Z :=
  if negb (IsArrayElement p) then Some (-1)
  else
    let startOfIndex := strings.LastIndex (lastPart p) lbrack + 2 in
    let endOfIndex := strings.LastIndex (lastPart p) rbrack + 1 in
    match slice p startOfIndex endOfIndex with
    | None => None
    | Some indexStr => Some (fst (strconv.Atoi indexStr))
    end.

Definition FieldName (p : Path) : gostring :=
  if IsRoot p || IsArrayElement p then []
  else lastPart p.

Definition Depth (p : Path) : Z :=
  if IsRoot p then 0
  else
    let countRoot := if IsAbsolute p then 1 else 0 in
    strings.Count p slash - countRoot + strings.Count p lbrack.

(** The first loop of [EachComponent]: the path and its ancestors, leaf
    first, up to but excluding the root (or the empty path).  Each [Up]
    shortens the path (lemma [Up_shorter]), so [length p] rounds are
    enough. *)
Fixpoint ancestors (fuel : nat) (part : Path) : list Path :=
  match fuel with
  | O => []
  | S fuel' =>
      if negb (IsRoot part) && negb (bool_decide (length part = 0%nat))
      then part :: ancestors fuel' (Up part)
      else []
  end.

(** The second loop of [EachComponent], on the parts root first.  The two
    callbacks are closures: they act on a state of type [S] and return the
    [bool] of the source.  The result is the state the callbacks left and
    the value returned, [None] when [Index] panicked on the way. *)
Fixpoint replay {S : Type} (parts : list Path)
    (fieldName : gostring -> S -> S * bool) (index : Z -> S -> S * bool)
    (s : S) : S * option bool :=
  match parts with
  | [] => (s, Some true)
  | part :: rest =>
      if IsArrayElement part then
        match Index part with
        | None => (s, None)
        | Some i =>
            let '(s', ok) := index i s in
            if ok then replay rest fieldName index s' else (s', Some false)
        end
      else
        let '(s', ok) := fieldName (FieldName part) s in
        if ok then replay rest fieldName index s' else (s', Some false)
  end.

Definition EachComponent {S : Type} (p : Path)
    (fieldName : gostring -> S -> S * bool) (index : Z -> S -> S * bool)
    (s : S) : S * option bool :=
  replay (rev (ancestors (length p) p)) fieldName index s.

(** [k] successive calls of [Up]. *)
Definition UpTimes (k : nat) (p : Path) : Path := Nat.iter k Up p.

(** What [EachComponent] reports: a field name or an index. *)
Inductive Component :=
| FieldC (name : gostring)
| IndexC (index : Z).

(** A pair of callbacks that record each invocation in a log and answer
    with [ok]. *)
Definition logField (ok : Component -> bool) (name : gostring)
    (log : list Component) : list Component * bool :=
  (log ++ [FieldC name], ok (FieldC name)).

Definition logIndex (ok : Component -> bool) (index : Z)
    (log : list Component) : list Component * bool :=
  (log ++ [IndexC index], ok (IndexC index)).

(** The invocations [EachComponent] makes when no callback stops it. *)
Definition components (p : Path) : list Component :=
  fst (EachComponent p (logField (fun _ => true)) (logIndex (fun _ => true)) []).

(** A path on which [EachComponent] cannot panic: [Index] is defined on the
    path and on all its ancestors. *)
Definition Resolvable (p : Path) : Prop :=
  Forall (fun part => is_Some (Index part)) (ancestors (length p) p).

(** Paths reachable from the root through the API of [Path]. *)
Inductive Built : Path -> Prop :=
| Built_root : Built NewPath
| Built_field p fieldName p' :
    Built p -> DownField p fieldName = Some p' -> Built p'
| Built_index p index : Built p -> Built (DownIndex p index).

(** A byte that is none of the reserved ones. *)
Definition plain (c : ascii) : Prop :=
  c <> slash /\ c <> lbrack /\ c <> rbrack.

(** The component that the second loop of [EachComponent] reports for one
    part, where [Index] is defined on it. *)
Definition componentOf (part : Path) : Component :=
  if IsArrayElement part then IndexC (default 0 (Index part))
  else FieldC (FieldName part).

(** The components up to and including the first one that a callback
    answers [false] to. *)
Fixpoint visited (ok : Component -> bool) (cs : list Component)
    : list Component :=
  match cs with
  | [] => []
  | c :: cs' => c :: (if ok c then visited ok cs' else [])
  end.

(** ** ifaces.ValidateError and its implementations in package issers

    The interface value is modelled by the two implementations the
    repository has; [IsEqual] dispatches on the dynamic type as the type
    assertions of the source do.  The arguments of a [ShouldBeMsg] are the
    [int]s the integer checks put there; [ErrorI18n], which only renders a
    message, is left out. *)
Inductive ValidateError :=
| SimpleValidateError (v : gostring)
| ShouldBeMsg (MsgFmt : gostring) (Args : list Z).

Module ifaces.

Definition IsEqual (v e : ValidateError) : bool :=
  match v, e with
  | SimpleValidateError v, SimpleValidateError t => bool_decide (v = t)
  | ShouldBeMsg vfmt vargs, ShouldBeMsg tfmt targs =>
      bool_decide (vfmt = tfmt) && bool_decide (vargs = targs)
  | _, _ => false
  end.

End ifaces.

(** ** The error tree

    A node owns its children, so the tree is a value.  The [parent] pointer
    of the source, which only [ErrorNode.Up] and [ErrorNode.IsRoot] read, is
    the context of a node in a [Cursor] below.  A [nil] map and a [nil]
    slice are [None]. *)
Inductive ErrorNode :=
  mkErrorNode {
    NamedChildren : option (gmap gostring ErrorNode);
    NumberedChildren : option (gmap Z ErrorNode);
    errs : option (list ValidateError) }.

(** A pointer to a node of a tree that is being written: the node, and the
    nodes above it with the component that leads down from each.  The copy
    of the child kept in a parent above is stale; [root] writes the nodes
    back. *)
Record Cursor := mkCursor {
  node : ErrorNode;
  above : list (ErrorNode * Component) }.

Module Node.

Definition NewErrorNode : ErrorNode :=
  {| NamedChildren := None; NumberedChildren := None; errs := None |}.

(** [m[k]] on a map that may be [nil]. *)
Definition lookupNamed (n : ErrorNode) (name : gostring) : option ErrorNode :=
  default ∅ (NamedChildren n) !! name.

Definition lookupNumbered (n : ErrorNode) (index : Z) : option ErrorNode :=
  default ∅ (NumberedChildren n) !! index.

(** [parent.NamedChildren[name] = child], allocating the map if needed. *)
Definition setChild (parent : ErrorNode) (c : Component) (child : ErrorNode)
    : ErrorNode :=
  match c with
  | FieldC name =>
      {| NamedChildren := Some (<[name := child]> (default ∅ (NamedChildren parent)));
         NumberedChildren := NumberedChildren parent;
         errs := errs parent |}
  | IndexC index =>
      {| NamedChildren := NamedChildren parent;
         NumberedChildren := Some (<[index := child]> (default ∅ (NumberedChildren parent)));
         errs := errs parent |}
  end.

(** The tree a cursor points into, as seen from its root. *)
Fixpoint plug (n : ErrorNode) (ctx : list (ErrorNode * Component)) : ErrorNode :=
  match ctx with
  | [] => n
  | (parent, c) :: ctx' => plug (setChild parent c n) ctx'
  end.

Definition root (cur : Cursor) : ErrorNode := plug (node cur) (above cur).

Definition atRoot (n : ErrorNode) : Cursor := {| node := n; above := [] |}.

(** [IsRoot]: there is no parent. *)
Definition IsRoot (cur : Cursor) : bool := bool_decide (above cur = []).

(** [Up]: the parent, or the node itself at the root. *)
Definition Up (cur : Cursor) : Cursor :=
  match above cur with
  | [] => cur
  | (parent, c) :: ctx => {| node := setChild parent c (node cur); above := ctx |}
  end.

(** [DownField]: the child named [name], created if it is missing. *)
Definition DownField (name : gostring) (cur : Cursor) : Cursor :=
  let n := node cur in
  let e := match lookupNamed n name with
           | Some e => e
           | None => NewErrorNode
           end in
  {| node := e; above := (setChild n (FieldC name) e, FieldC name) :: above cur |}.

(** [DownIndex]: the child at [index], created if it is missing. *)
Definition DownIndex (index : Z) (cur : Cursor) : Cursor :=
  let n := node cur in
  let e := match lookupNumbered n index with
           | Some e => e
           | None => NewErrorNode
           end in
  {| node := e; above := (setChild n (IndexC index) e, IndexC index) :: above cur |}.

(** [Add] appends to the errors of the node pointed at. *)
Definition Add (e : ValidateError) (cur : Cursor) : Cursor :=
  let n := node cur in
  {| node := {| NamedChildren := NamedChildren n;
                NumberedChildren := NumberedChildren n;
                errs := Some (default [] (errs n) ++ [e]) |};
     above := above cur |}.

Definition Errors (n : ErrorNode) : option (list ValidateError) := errs n.

(** [HasErrors]: the walk stops at the first child with errors; the
    answer does not depend on the order in which Go visits a map. *)
Fixpoint HasErrors (n : ErrorNode) : bool :=
  match n with
  | mkErrorNode named numbered es =>
      if negb (bool_decide (length (default [] es) = 0%nat)) then true
      else if match named with
              | Some children =>
                  map_fold (fun _ c found => found || HasErrors c) false children
              | None => false
              end then true
      else match numbered with
           | Some children =>
               map_fold (fun _ c found => found || HasErrors c) false children
           | None => false
           end
  end.

(** [traverseTo]: [Some None] is the [nil] result, [None] a panic of
    [Path.Index] on the way.  The callbacks only read. *)
Definition traverseTo (n : ErrorNode) (path : Path) : option (option ErrorNode) :=
  let '(current, completed) :=
    EachComponent path
      (fun fieldName current =>
         match lookupNamed current fieldName with
         | None => (current, false)
         | Some c => (c, true)
         end)
      (fun index current =>
         match lookupNumbered current index with
         | None => (current, false)
         | Some c => (c, true)
         end)
      n in
  match completed with
  | None => None
  | Some true => Some (Some current)
  | Some false => Some None
  end.

Definition HasErrorAt (n : ErrorNode) (path : Path) : option bool :=
  match traverseTo n path with
  | None => None
  | Some None => Some false
  | Some (Some current) =>
      Some (negb (bool_decide (length (default [] (errs current)) = 0%nat)))
  end.

Definition IsErrorAt (n : ErrorNode) (path : Path) (validateError : ValidateError)
    : option bool :=
  match traverseTo n path with
  | None => None
  | Some None => Some false
  | Some (Some current) =>
      Some (existsb (fun e => ifaces.IsEqual e validateError)
              (default [] (errs current)))
  end.

(** The inner loop of [IsEqual] for one error [e] of the receiver: the
    scan goes through the whole list and removes every entry equal to
    [e]. *)
Fixpoint removeVisited (e : ValidateError) (unVisitedErrors : list ValidateError)
    : list ValidateError :=
  match unVisitedErrors with
  | [] => []
  | i :: rest =>
      if ifaces.IsEqual e i then removeVisited e rest
      else i :: removeVisited e rest
  end.

(** The comparison of the local errors, both lists present: [PushFront]
    of each error of [o], then the scan for each error of [n]; [true]
    when nothing is left. *)
Definition errsEqual (nerrs oerrs : list ValidateError) : bool :=
  if negb (bool_decide (length nerrs = length oerrs)) then false
  else
    let unVisitedErrors := foldl (fun l e => e :: l) [] oerrs in
    let unVisitedErrors :=
      foldl (fun l e => removeVisited e l) unVisitedErrors nerrs in
    bool_decide (length unVisitedErrors = 0%nat).

(** One round of a loop over children: [step] compares one pair and the
    loop returns [false] at the first difference; a [nil] child is a
    panic ([None]). *)
Definition andThen (acc : option bool) (step : option bool) : option bool :=
  match acc with
  | Some true => step
  | _ => acc
  end.

(** [IsEqual].  The numbered children are compared at the indices
    [0 .. len-1]; a missing index is a [nil] node, on which the
    comparison panics.  The named children are compared in the order of
    [map_to_list], where Go picks an order at random. *)
Fixpoint IsEqual (n o : ErrorNode) : option bool :=
  match n with
  | mkErrorNode nnamed nnumbered nerrs =>
      if (bool_decide (is_Some nerrs) && bool_decide (errs o = None))
         || (bool_decide (nerrs = None) && bool_decide (is_Some (errs o)))
      then Some false
      else if match nerrs with
              | Some nerrs => negb (errsEqual nerrs (default [] (errs o)))
              | None => false
              end
      then Some false
      else
        (* Numbered children *)
        let oo := NumberedChildren o in
        if bool_decide (is_Some nnumbered) && bool_decide (oo = None) then Some false
        else if bool_decide (is_Some oo) && bool_decide (nnumbered = None) then Some false
        else
          let numbered :=
            match nnumbered with
            | Some nn =>
                if negb (bool_decide (size nn = size (default ∅ oo))) then Some false
                else
                  let cmp := (fun c => IsEqual c) <$> nn in
                  foldl (fun acc i =>
                           andThen acc
                             match cmp !! i, default ∅ oo !! i with
                             | Some f, Some oc => f oc
                             | _, _ => None
                             end)
                    (Some true) (seqZ 0 (Z.of_nat (size nn)))
            | None => Some true
            end in
          match numbered with
          | Some true =>
              (* Named children *)
              let oo := NamedChildren o in
              if bool_decide (is_Some nnamed) && bool_decide (oo = None) then Some false
              else if bool_decide (is_Some oo) && bool_decide (nnamed = None) then Some false
              else
                match nnamed with
                | Some nn =>
                    if negb (bool_decide (size nn = size (default ∅ oo))) then Some false
                    else
                      map_fold (fun i c acc =>
                                  andThen acc
                                    match default ∅ oo !! i with
                                    | Some oc => IsEqual c oc
                                    | None => None
                                    end)
                        (Some true) nn
                | None => Some true
                end
          | other => other
          end
  end.

(** The number of errors stored in a tree. *)
Fixpoint totalErrors (n : ErrorNode) : nat :=
  match n with
  | mkErrorNode named numbered es =>
      (length (default [] es)
       + match named with
         | Some children =>
             map_fold (fun _ c sum => sum + totalErrors c) 0 children
         | None => 0
         end
       + match numbered with
         | Some children =>
             map_fold (fun _ c sum => sum + totalErrors c) 0 children
         | None => 0
         end)%nat
  end.

(** The errors stored under the children of a map that may be [nil]. *)
Definition childErrors {K} `{Countable K}
    (children : option (gmap K ErrorNode)) : nat :=
  match children with
  | Some children =>
      map_fold (fun _ c sum => sum + totalErrors c)%nat 0%nat children
  | None => 0%nat
  end.

(** The errors of [parent] outside its child at [c]. *)
Definition holeErrors (parent : ErrorNode) (c : Component) : nat :=
  totalErrors (setChild parent c NewErrorNode).

(** The errors of the nodes above a cursor, outside the way down. *)
Definition ctxErrors (ctx : list (ErrorNode * Component)) : nat :=
  foldr (fun '(parent, c) sum => holeErrors parent c + sum)%nat 0%nat ctx.

(** The number of nodes of a tree. *)
Fixpoint nodes (n : ErrorNode) : nat :=
  match n with
  | mkErrorNode named numbered es =>
      S (match named with
         | Some children => map_fold (fun _ c sum => sum + nodes c) 0 children
         | None => 0
         end
         + match numbered with
           | Some children => map_fold (fun _ c sum => sum + nodes c) 0 children
           | None => 0
           end)%nat
  end.

(** Whether some child of a map that may be [nil] has errors: the loops
    of [HasErrors] over the children. *)
Definition anyChildError {K} `{Countable K}
    (children : option (gmap K ErrorNode)) : bool :=
  match children with
  | Some children =>
      map_fold (fun _ c found => found || HasErrors c) false children
  | None => false
  end.

End Node.

(** Pure navigation along components: the child at each component in turn,
    [None] when one is missing. *)
Fixpoint navigate (cs : list Component) (n : ErrorNode) : option ErrorNode :=
  match cs with
  | [] => Some n
  | FieldC name :: cs' =>
      match Node.lookupNamed n name with
      | Some c => navigate cs' c
      | None => None
      end
  | IndexC index :: cs' =>
      match Node.lookupNumbered n index with
      | Some c => navigate cs' c
      | None => None
      end
  end.

(** A perfect one-to-one matching of two lists of errors: the second list
    can be reordered so that the errors at the same position are equal by
    the contract of the error values. *)
Definition matched (nerrs oerrs : list ValidateError) : Prop :=
  exists l, Permutation oerrs l
            /\ Forall2 (fun e i => ifaces.IsEqual e i = true) nerrs l.

(** A node with the given local errors and no children. *)
Definition leaf (es : list ValidateError) : ErrorNode :=
  {| NamedChildren := None; NumberedChildren := None; errs := Some es |}.

(** ** issers.Is

    [recorded] is a ghost field, absent from the source: the log of the
    calls of [Invalid], with the cursor of each.  No function reads it. *)
Record Is := mkIs {
  currentPath : Path;
  errorsRoot : option ErrorNode;
  errorsCount : Z;
  recorded : list (Path * ValidateError) }.

(** A 64-bit [int] after an addition. *)
Definition int_wrap (z : Z) : Z := (z + 2 ^ 63) `mod` 2 ^ 64 - 2 ^ 63.

(** How a call on an [*Is] ends: it returns a value or it panics; either
    way the [Is] is left in some state. *)
Inductive result (A : Type) :=
| Returned (a : A) (i : Is)
| Panicked (i : Is).
Arguments Returned {A} a i.
Arguments Panicked {A} i.

Definition state {A} (r : result A) : Is :=
  match r with Returned _ i => i | Panicked i => i end.

Definition panicked {A} (r : result A) : bool :=
  match r with Returned _ _ => false | Panicked _ => true end.

(** [msg func() ifaces.ValidateError]: a [nil] function, or a function by
    what it returns, [nil] or an error. *)
Abbreviation msgFunc := (option (option ValidateError)).

Module issers.

Definition setCurrentPath (p : Path) (i : Is) : Is :=
  {| currentPath := p; errorsRoot := errorsRoot i;
     errorsCount := errorsCount i; recorded := recorded i |}.

Definition setErrorsRoot (r : ErrorNode) (i : Is) : Is :=
  {| currentPath := currentPath i; errorsRoot := Some r;
     errorsCount := errorsCount i; recorded := recorded i |}.

(** validate_error.go *)
Definition NewSimpleValidateError (v : gostring) : ValidateError :=
  SimpleValidateError v.

Definition ShouldBeTrueErr := NewSimpleValidateError (str "should be true").
Definition ShouldBeFalseErr := NewSimpleValidateError (str "should be false").
Definition ShouldBePresentErr := NewSimpleValidateError (str "should be present").

Definition shouldBeIntBetweenMsg := str "should be between %d and %d".
Definition shouldBeIntGreaterThanMsg := str "should be greater than %d".
Definition shouldBeIntLessThanMsg := str "should be less than %d".
Definition shouldBeIntGreaterThanOrEqualMsg :=
  str "should be greater than or equal to %d".
Definition shouldBeIntLessThanOrEqualMsg :=
  str "should be less than or equal to %d".
Definition shouldBeInStringSlice := str "not an acceptable value".

Definition NewShouldBeIntBetween (low high : Z) : ValidateError :=
  ShouldBeMsg shouldBeIntBetweenMsg [low; high].
Definition NewShouldBeIntGreaterThan (low : Z) : ValidateError :=
  ShouldBeMsg shouldBeIntGreaterThanMsg [low].
Definition NewShouldBeIntLessThan (high : Z) : ValidateError :=
  ShouldBeMsg shouldBeIntLessThanMsg [high].
Definition NewShouldBeIntGreaterThanOrEqual (low : Z) : ValidateError :=
  ShouldBeMsg shouldBeIntGreaterThanOrEqualMsg [low].
Definition NewShouldBeIntLessThanOrEqual (high : Z) : ValidateError :=
  ShouldBeMsg shouldBeIntLessThanOrEqualMsg [high].
Definition NewShouldBeInStringSlice : ValidateError :=
  ShouldBeMsg shouldBeInStringSlice [].

(** [defMsg.MsgFmt = fmt.Sprintf("length %s", defMsg.MsgFmt)] *)
Definition lengthMsg (defMsg : ValidateError) : ValidateError :=
  match defMsg with
  | ShouldBeMsg MsgFmt Args => ShouldBeMsg (str "length " ++ MsgFmt) Args
  | other => other
  end.

(** The [Is] of [NewRoot()], and the zero value [&Is{}] that the tests of
    the repository start from. *)
Definition NewRoot : Is :=
  {| currentPath := NewPath; errorsRoot := None; errorsCount := 0;
     recorded := [] |}.

Definition zero : Is :=
  {| currentPath := []; errorsRoot := None; errorsCount := 0;
     recorded := [] |}.

Definition CurrentPath (i : Is) : Path := currentPath i.

Definition HasErrors (i : Is) : bool :=
  negb (bool_decide (errorsCount i = 0)).

(** [errors]: the root of the tree, created on first use. *)
Definition errors (i : Is) : ErrorNode * Is :=
  match errorsRoot i with
  | None => (Node.NewErrorNode, setErrorsRoot Node.NewErrorNode i)
  | Some r => (r, i)
  end.

(** [Errors] has a value receiver: the root it creates is attached to a
    copy. *)
Definition Errors (i : Is) : ErrorNode := fst (errors i).

Definition Len (i : Is) : Z := errorsCount i.

(** [With]: the deferred function runs when [wrap] returns and when it
    panics. *)
Definition With (wrap : Is -> result unit) (i : Is) : result unit :=
  let originalPath := currentPath i in
  match wrap i with
  | Returned a i' => Returned a (setCurrentPath originalPath i')
  | Panicked i' => Panicked (setCurrentPath originalPath i')
  end.

Definition WithField (fieldName : gostring) (wrap : Is -> result unit)
    (i : Is) : result unit :=
  With (fun i =>
          match DownField (currentPath i) fieldName with
          | None => Panicked i
          | Some p => wrap (setCurrentPath p i)
          end) i.

Definition WithIndex (index : Z) (wrap : Is -> result unit) (i : Is)
    : result unit :=
  With (fun i => wrap (setCurrentPath (DownIndex (currentPath i) index) i)) i.

(** [currentErrorNode]: the pointer to the node of the cursor, whether
    [EachComponent] completed, and the [Is], whose tree now has the nodes
    on the way. *)
Definition currentErrorNode (i : Is) : Cursor * option bool * Is :=
  let '(r, i) := errors i in
  let '(n, completed) :=
    EachComponent (currentPath i)
      (fun fieldName n => (Node.DownField fieldName n, true))
      (fun index n => (Node.DownIndex index n, true))
      (Node.atRoot r) in
  (n, completed, setErrorsRoot (Node.root n) i).

Definition Invalid (msg : ValidateError) (i : Is) : result unit :=
  let i := {| currentPath := currentPath i; errorsRoot := errorsRoot i;
              errorsCount := int_wrap (errorsCount i + 1);
              recorded := recorded i ++ [(currentPath i, msg)] |} in
  let '(n, completed, i) := currentErrorNode i in
  match completed with
  | None => Panicked i
  | Some _ => Returned tt (setErrorsRoot (Node.root (Node.Add msg n)) i)
  end.

(** [True] and [False] of the source are [True'] and [False'] here. *)
Definition msgOrDefault (in_ : msgFunc) (def : ValidateError) : ValidateError :=
  match in_ with
  | Some ret =>
      match ret with
      | None => def
      | Some ret => ret
      end
  | None => def
  end.

(** [return v] after a call that returned. *)
Definition andReturn {A B} (r : result A) (v : B) : result B :=
  match r with
  | Returned _ i => Returned v i
  | Panicked i => Panicked i
  end.

Definition True' (value : bool) (msg : msgFunc) (i : Is) : result bool :=
  if negb value then andReturn (Invalid (msgOrDefault msg ShouldBeTrueErr) i) false
  else Returned true i.

Definition False' (value : bool) (msg : msgFunc) (i : Is) : result bool :=
  True' (negb value) (Some (Some (msgOrDefault msg ShouldBeFalseErr))) i.

Definition Required (isPresent : bool) (i : Is) : result bool :=
  if negb isPresent then
    andReturn (True' false (Some (Some ShouldBePresentErr)) i) false
  else Returned true i.

Definition IntBetween (value low high : Z) (msg : msgFunc) (i : Is)
    : result bool :=
  if bool_decide (low > high) then Panicked i
  else True' (bool_decide (low <= value) && bool_decide (value <= high))
         (Some (Some (msgOrDefault msg (NewShouldBeIntBetween low high)))) i.

Definition IntGreaterThan (value low : Z) (msg : msgFunc) (i : Is)
    : result bool :=
  True' (bool_decide (low < value))
    (Some (Some (msgOrDefault msg (NewShouldBeIntGreaterThan low)))) i.

Definition IntLessThan (value high : Z) (msg : msgFunc) (i : Is)
    : result bool :=
  True' (bool_decide (value < high))
    (Some (Some (msgOrDefault msg (NewShouldBeIntLessThan high)))) i.

Definition IntGreaterThanOrEqual (value low : Z) (msg : msgFunc) (i : Is)
    : result bool :=
  True' (bool_decide (low <= value))
    (Some (Some (msgOrDefault msg (NewShouldBeIntGreaterThanOrEqual low)))) i.

Definition IntLessThanOrEqual (value high : Z) (msg : msgFunc) (i : Is)
    : result bool :=
  True' (bool_decide (value <= high))
    (Some (Some (msgOrDefault msg (NewShouldBeIntLessThanOrEqual high)))) i.

Definition StringLengthBetween (value : gostring) (low high : Z)
    (msg : msgFunc) (i : Is) : result bool :=
  if bool_decide (low > high) then Panicked i
  else IntBetween (len value) low high
         (Some (Some (msgOrDefault msg (lengthMsg (NewShouldBeIntBetween low high))))) i.

Definition StringLengthGreaterThan (value : gostring) (low : Z)
    (msg : msgFunc) (i : Is) : result bool :=
  IntGreaterThan (len value) low
    (Some (Some (msgOrDefault msg (lengthMsg (NewShouldBeIntGreaterThan low))))) i.

Definition StringLengthLessThan (value : gostring) (high : Z)
    (msg : msgFunc) (i : Is) : result bool :=
  IntLessThan (len value) high
    (Some (Some (msgOrDefault msg (lengthMsg (NewShouldBeIntGreaterThan high))))) i.

Definition StringLengthGreaterThanOrEqual (value : gostring) (low : Z)
    (msg : msgFunc) (i : Is) : result bool :=
  IntGreaterThanOrEqual (len value) low
    (Some (Some (msgOrDefault msg (lengthMsg (NewShouldBeIntGreaterThanOrEqual low))))) i.

Definition StringLengthLessThanOrEqual (value : gostring) (high : Z)
    (msg : msgFunc) (i : Is) : result bool :=
  IntLessThanOrEqual (len value) high
    (Some (Some (msgOrDefault msg (lengthMsg (NewShouldBeIntGreaterThanOrEqual high))))) i.

Definition StringInStringSlice (value : gostring) (values : list gostring)
    (msg : msgFunc) (i : Is) : result bool :=
  if existsb (fun v => bool_decide (value = v)) values then Returned true i
  else andReturn (Invalid (msgOrDefault msg NewShouldBeInStringSlice) i) false.

End issers.

(** ** Sequences of operations on an [Is]

    A run of client code against an [*Is] is the tree of the calls it
    makes: the assertions, the scoping calls with the calls their callbacks
    make, and [Recover], a callback run under a deferred [recover()].  The
    checks on [float64], on regular expressions and on URLs, which differ
    from the ones here in the condition they pass to [True] or [Invalid],
    are not part of the model. *)
Inductive Op :=
| CallInvalid (msg : ValidateError)
| CallTrue (value : bool) (msg : msgFunc)
| CallFalse (value : bool) (msg : msgFunc)
| CallRequired (isPresent : bool)
| CallIntBetween (value low high : Z) (msg : msgFunc)
| CallIntGreaterThan (value low : Z) (msg : msgFunc)
| CallIntLessThan (value high : Z) (msg : msgFunc)
| CallIntGreaterThanOrEqual (value low : Z) (msg : msgFunc)
| CallIntLessThanOrEqual (value high : Z) (msg : msgFunc)
| CallStringLengthBetween (value : gostring) (low high : Z) (msg : msgFunc)
| CallStringLengthGreaterThan (value : gostring) (low : Z) (msg : msgFunc)
| CallStringLengthLessThan (value : gostring) (high : Z) (msg : msgFunc)
| CallStringLengthGreaterThanOrEqual (value : gostring) (low : Z) (msg : msgFunc)
| CallStringLengthLessThanOrEqual (value : gostring) (high : Z) (msg : msgFunc)
| CallStringInStringSlice (value : gostring) (values : list gostring) (msg : msgFunc)
| CallWith (wrap : list Op)
| CallWithField (fieldName : gostring) (wrap : list Op)
| CallWithIndex (index : Z) (wrap : list Op)
| Recover (body : list Op).

(** Calls in sequence: a panic ends the sequence. *)
Definition sequence (call : Op -> Is -> result unit) : list Op -> Is -> result unit :=
  fix go (ops : list Op) (i : Is) : result unit :=
    match ops with
    | [] => Returned tt i
    | op :: ops' =>
        match call op i with
        | Returned _ i' => go ops' i'
        | Panicked i' => Panicked i'
        end
    end.

Fixpoint call (op : Op) (i : Is) {struct op} : result unit :=
  match op with
  | CallInvalid msg => issers.Invalid msg i
  | CallTrue value msg => issers.andReturn (issers.True' value msg i) tt
  | CallFalse value msg => issers.andReturn (issers.False' value msg i) tt
  | CallRequired isPresent => issers.andReturn (issers.Required isPresent i) tt
  | CallIntBetween value low high msg =>
      issers.andReturn (issers.IntBetween value low high msg i) tt
  | CallIntGreaterThan value low msg =>
      issers.andReturn (issers.IntGreaterThan value low msg i) tt
  | CallIntLessThan value high msg =>
      issers.andReturn (issers.IntLessThan value high msg i) tt
  | CallIntGreaterThanOrEqual value low msg =>
      issers.andReturn (issers.IntGreaterThanOrEqual value low msg i) tt
  | CallIntLessThanOrEqual value high msg =>
      issers.andReturn (issers.IntLessThanOrEqual value high msg i) tt
  | CallStringLengthBetween value low high msg =>
      issers.andReturn (issers.StringLengthBetween value low high msg i) tt
  | CallStringLengthGreaterThan value low msg =>
      issers.andReturn (issers.StringLengthGreaterThan value low msg i) tt
  | CallStringLengthLessThan value high msg =>
      issers.andReturn (issers.StringLengthLessThan value high msg i) tt
  | CallStringLengthGreaterThanOrEqual value low msg =>
      issers.andReturn (issers.StringLengthGreaterThanOrEqual value low msg i) tt
  | CallStringLengthLessThanOrEqual value high msg =>
      issers.andReturn (issers.StringLengthLessThanOrEqual value high msg i) tt
  | CallStringInStringSlice value values msg =>
      issers.andReturn (issers.StringInStringSlice value values msg i) tt
  | CallWith wrap => issers.With (sequence call wrap) i
  | CallWithField fieldName wrap =>
      issers.WithField fieldName (sequence call wrap) i
  | CallWithIndex index wrap => issers.WithIndex index (sequence call wrap) i
  | Recover body => Returned tt (state (sequence call body i))
  end.

Definition run (ops : list Op) (i : Is) : result unit := sequence call ops i.

(** The result of a callback with nothing changed but the cursor, which is
    [p] again. *)
Definition restored (p : Path) (r : result unit) : result unit :=
  match r with
  | Returned a i => Returned a (issers.setCurrentPath p i)
  | Panicked i => Panicked (issers.setCurrentPath p i)
  end.

(** The invariant of an [Is]: [EachComponent] completes on the cursor, and
    the tree and the counter both hold as many errors as [Invalid] was
    called with. *)
Definition Consistent (i : Is) : Prop :=
  Resolvable (currentPath i)
  /\ Node.totalErrors (issers.Errors i) = length (recorded i)
  /\ errorsCount i = int_wrap (Z.of_nat (length (recorded i))).


(** ** Proof steps that recur *)

(** A byte is not in a string put together from pieces it is not in. *)
Ltac solve_notin :=
  simpl;
  repeat first
    [ apply not_elem_of_nil
    | assumption
    | rewrite not_elem_of_cons
    | rewrite not_elem_of_app
    | split
    | done ].

(** The preservation lemmas of the invariant [Consistent]. *)
Create HintDb consistent.

(** * Properties *)

(** ** Facts about the string functions *)

Section StringFacts.
Import strings.
Implicit Types (s t : gostring) (c sep : ascii).

Lemma Split_nonempty s sep : Split s sep <> [].
Proof.
  destruct s as [|c s]; simpl; [done|].
  case_bool_decide; [done|]. by destruct (Split s sep).
Qed.

Lemma Split_no_sep s sep : sep ∉ s -> Split s sep = [s].
Proof.
  induction s as [|c s IH]; intros Hn; simpl; [done|].
  apply not_elem_of_cons in Hn as [Hc Hs].
  case_bool_decide; [congruence|]. by rewrite IH.
Qed.

Lemma Split_app_sep s t sep :
  Split (s ++ sep :: t) sep = Split s sep ++ Split t sep.
Proof.
  induction s as [|c s IH]; simpl.
  - by rewrite bool_decide_true.
  - case_bool_decide; rewrite IH; [done|].
    pose proof (Split_nonempty s sep). by destruct (Split s sep).
Qed.

(** Appending bytes other than the separator extends the last piece. *)
Lemma Split_app_no_sep s t sep :
  sep ∉ t ->
  Split (s ++ t) sep
  = removelast (Split s sep) ++ [List.last (Split s sep) [] ++ t].
Proof.
  intros Ht. induction s as [|c s IH]; simpl.
  - by apply Split_no_sep.
  - pose proof (Split_nonempty s sep) as Hne.
    case_bool_decide.
    + rewrite IH. by destruct (Split s sep).
    + rewrite IH. destruct (Split s sep) as [|part [|part' parts]]; done.
Qed.

Lemma Join_Split s sep : Join (Split s sep) [sep] = s.
Proof.
  induction s as [|c s IH]; simpl; [done|].
  pose proof (Split_nonempty s sep) as Hne.
  case_bool_decide; subst.
  - destruct (Split s sep) eqn:E; [done|]. simpl in *. by rewrite IH.
  - destruct (Split s sep) as [|part parts] eqn:E; [done|].
    destruct parts; simpl in *; by rewrite <- IH.
Qed.

Lemma last_Split_app_sep s t sep :
  sep ∉ t -> List.last (Split (s ++ sep :: t) sep) [] = t.
Proof.
  intros Ht. rewrite Split_app_sep, (Split_no_sep t) by done.
  apply last_last.
Qed.

Lemma last_Split_app_no_sep s t sep :
  sep ∉ t ->
  List.last (Split (s ++ t) sep) [] = List.last (Split s sep) [] ++ t.
Proof. intros Ht. rewrite Split_app_no_sep by done. apply last_last. Qed.

Lemma Count_app s t c : Count (s ++ t) c = Count s c + Count t c.
Proof. induction s as [|d s IH]; simpl; [done|]. rewrite IH. lia. Qed.

Lemma Count_nonneg s c : 0 <= Count s c.
Proof. induction s as [|d s IH]; simpl; [done|]. case_bool_decide; lia. Qed.

Lemma Count_notin s c : c ∉ s -> Count s c = 0.
Proof.
  induction s as [|d s IH]; intros Hn; simpl; [done|].
  apply not_elem_of_cons in Hn as [Hc Hs].
  rewrite bool_decide_false by congruence. by rewrite IH.
Qed.

Lemma Index_notin s c : Index s c = -1 <-> c ∉ s.
Proof.
  induction s as [|d s IH]; simpl.
  - split; [intros _; apply not_elem_of_nil|done].
  - rewrite not_elem_of_cons. case_bool_decide as Hd.
    + subst. split; [done|]. by intros [? _].
    + case_bool_decide as Hr.
      * split; [|done]. intros _. split; [congruence|]. by apply IH.
      * split; [|intros [_ Hs]; by apply IH in Hs].
        assert (-1 <= Index s c) by (clear; induction s; simpl; repeat case_bool_decide; lia).
        lia.
Qed.

Lemma LastIndex_bounds s c : -1 <= LastIndex s c < len s.
Proof.
  unfold len. induction s as [|d s IH]; simpl length; simpl LastIndex; [lia|].
  repeat case_bool_decide; lia.
Qed.

Lemma LastIndex_notin s c : LastIndex s c = -1 <-> c ∉ s.
Proof.
  induction s as [|d s IH]; simpl.
  - split; [intros _; apply not_elem_of_nil|done].
  - rewrite not_elem_of_cons. pose proof (LastIndex_bounds s c).
    destruct (decide (LastIndex s c = -1)) as [Hr|Hr].
    + rewrite bool_decide_true by done. case_bool_decide as Hd.
      * split; [lia|]. intros [Hne _]. by destruct Hne.
      * split; [|done]. intros _. split; [congruence|by apply IH].
    + rewrite bool_decide_false by done.
      split; [lia|]. intros [_ Hs]. by apply IH in Hs.
Qed.

(** The last occurrence, when no further one follows. *)
Lemma LastIndex_app s t c : c ∉ t -> LastIndex (s ++ c :: t) c = len s.
Proof.
  intros Ht. unfold len. induction s as [|d s IH]; simpl.
  - apply LastIndex_notin in Ht. rewrite Ht. by rewrite !bool_decide_true.
  - rewrite IH. rewrite bool_decide_false by lia. lia.
Qed.

Lemma LastIndex_app_notin s t c :
  c ∉ t -> LastIndex (s ++ t) c = LastIndex s c.
Proof.
  intros Ht. induction s as [|d s IH]; simpl.
  - by apply LastIndex_notin.
  - by rewrite IH.
Qed.

Lemma HasPrefix_slash s : HasPrefix s [slash] = true <-> exists t, s = slash :: t.
Proof.
  destruct s as [|c s]; simpl.
  - split; [done|]. by intros [? ?].
  - rewrite andb_true_r. rewrite bool_decide_eq_true.
    split; [intros ->; eauto|]. by intros [? [= -> ?]].
Qed.

Lemma ContainsAny_false s chars :
  ContainsAny s chars = false <-> forall c, c ∈ chars -> c ∉ s.
Proof.
  unfold ContainsAny. induction s as [|d s IH]; simpl.
  - split; [intros _ c _; apply not_elem_of_nil|done].
  - rewrite orb_false_iff, IH, bool_decide_eq_false. split.
    + intros [Hd Hs] c Hc. apply not_elem_of_cons. split; [congruence|eauto].
    + intros H. split.
      * intros Hd. by apply (H d Hd), elem_of_cons; left.
      * intros c Hc Hin. apply (H c Hc), elem_of_cons; by right.
Qed.

End StringFacts.

(** ** Facts about paths *)

Section PathFacts.
Import strings.
Implicit Types (p : Path) (n : gostring) (i : Z).

Lemma plain_notin s :
  Forall plain s -> (slash ∉ s) /\ (lbrack ∉ s) /\ (rbrack ∉ s).
Proof.
  intros H. repeat split; intros Hin;
    eapply Forall_forall in Hin; eauto; unfold plain in Hin; tauto.
Qed.

Lemma string_of_uint_plain u :
  Forall plain (list_ascii_of_string (NilEmpty.string_of_uint u)).
Proof. induction u; simpl; constructor; try done; by repeat split. Qed.

Lemma fmt_d_plain i : Forall plain (fmt.d i).
Proof.
  unfold fmt.d, NilZero.string_of_int, NilZero.string_of_uint.
  destruct (Z.to_int i) as [u|u]; destruct u; simpl;
    repeat (constructor; [by repeat split|]);
    try apply string_of_uint_plain; try constructor.
Qed.

Lemma isValidFieldName_true n :
  isValidFieldName n = true <-> (slash ∉ n) /\ (lbrack ∉ n) /\ (rbrack ∉ n).
Proof.
  unfold isValidFieldName. rewrite negb_true_iff, ContainsAny_false. split.
  - intros H. repeat split; apply H; unfold PathSeparator; set_solver.
  - intros (H1 & H2 & H3) c Hc. unfold PathSeparator in Hc.
    simpl in Hc. set_unfold. destruct Hc as [->| [->| [->|[]]]]; done.
Qed.

Lemma DownField_Some p n p' :
  DownField p n = Some p' ->
  isValidFieldName n = true
  /\ p' = if IsRoot p then p ++ n else p ++ slash :: n.
Proof.
  unfold DownField. destruct (isValidFieldName n); simpl; [|done].
  unfold IsRoot. case_bool_decide as Hr.
  - subst. simpl. by intros [= <-].
  - rewrite andb_false_r. by intros [= <-].
Qed.

Lemma IsRoot_app_false p s : p <> [] -> s <> [] -> IsRoot (p ++ s) = false.
Proof.
  intros Hp Hs. unfold IsRoot, PathSeparator. apply bool_decide_eq_false.
  intros E. apply (f_equal length) in E. rewrite length_app in E. simpl in E.
  destruct p, s; simpl in *; try done. lia.
Qed.

Lemma IsRoot_DownIndex p i : IsRoot (DownIndex p i) = false.
Proof.
  unfold IsRoot, DownIndex, PathSeparator. apply bool_decide_eq_false.
  intros E. apply (f_equal length) in E. rewrite !length_app in E.
  simpl in E. lia.
Qed.

Lemma IsAbsolute_app p s : p <> [] -> IsAbsolute (p ++ s) = IsAbsolute p.
Proof. by destruct p. Qed.

Lemma slice_parts_init (l : list gostring) y :
  slice_parts (l ++ [y]) 0 (length (l ++ [y]) - 1) = l.
Proof.
  unfold slice_parts. rewrite length_app. simpl length. rewrite drop_0.
  replace (length l + 1 - 1 - 0)%nat with (length l) by lia.
  apply take_app_length.
Qed.

Lemma slice_parts_middle x (l : list gostring) y :
  slice_parts (x :: l ++ [y]) 1 (length (x :: l ++ [y]) - 1) = l.
Proof.
  unfold slice_parts. simpl length. rewrite length_app. simpl length.
  simpl drop. rewrite drop_0.
  replace (S (length l + 1) - 1 - 1)%nat with (length l) by lia.
  apply take_app_length.
Qed.

(** *** [Up] undoes a descent *)

Lemma Up_field p n :
  p <> [] -> IsRoot p = false -> slash ∉ n -> lbrack ∉ n ->
  Up (p ++ slash :: n) = p.
Proof.
  intros Hp Hr Hs Hb.
  unfold Up. rewrite IsRoot_app_false by done.
  unfold IsArrayElement. rewrite IsRoot_app_false by done.
  unfold lastPart. rewrite last_Split_app_sep by done.
  rewrite bool_decide_true by (by apply Index_notin). simpl negb. cbv iota.
  rewrite IsAbsolute_app by done.
  rewrite Split_app_sep, (Split_no_sep n) by done.
  destruct (IsAbsolute p) eqn:Ha.
  - apply HasPrefix_slash in Ha as [t ->].
    change (Split (slash :: t) slash) with ([] :: Split t slash).
    rewrite <- app_comm_cons, slice_parts_middle.
    unfold PathSeparator. by rewrite Join_Split.
  - rewrite slice_parts_init. unfold PathSeparator. by rewrite Join_Split.
Qed.

Lemma Up_field_root n : slash ∉ n -> lbrack ∉ n -> Up (slash :: n) = NewPath.
Proof.
  intros Hs Hb. unfold Up, NewPath, PathSeparator.
  destruct (IsRoot (slash :: n)) eqn:Hr.
  { unfold IsRoot in Hr. by apply bool_decide_eq_true in Hr. }
  unfold IsArrayElement. rewrite Hr.
  pose proof (last_Split_app_sep [] n slash Hs) as Hl.
  pose proof (Split_app_sep [] n slash) as Hsp.
  rewrite (Split_no_sep n) in Hsp by done.
  change ([] ++ slash :: n) with (slash :: n) in Hl, Hsp.
  change (Split [] slash ++ [n]) with [[]; n] in Hsp.
  unfold lastPart. rewrite Hl.
  rewrite bool_decide_true by (by apply Index_notin). simpl negb. cbv iota.
  change (IsAbsolute (slash :: n)) with true. cbv iota.
  by rewrite Hsp.
Qed.

Lemma Up_index p i : Up (DownIndex p i) = p.
Proof.
  pose proof (plain_notin _ (fmt_d_plain i)) as (Hs & Hb & _).
  unfold DownIndex, Up.
  assert (IsRoot (p ++ [lbrack] ++ fmt.d i ++ [rbrack]) = false) as Hr.
  { unfold IsRoot, PathSeparator. apply bool_decide_eq_false. intros E.
    apply (f_equal length) in E. rewrite !length_app in E. simpl in E. lia. }
  rewrite Hr. unfold IsArrayElement. rewrite Hr.
  unfold lastPart. rewrite last_Split_app_no_sep.
  2:{ solve_notin. }
  rewrite bool_decide_false.
  2:{ rewrite Index_notin. intros H. apply H. set_solver. }
  simpl negb. cbv iota. simpl app.
  rewrite LastIndex_app.
  2:{ solve_notin. }
  unfold len. rewrite Nat2Z.id. apply take_app_length.
Qed.

End PathFacts.

Section DepthFacts.
Import strings.
Implicit Types (p : Path) (n : gostring) (i : Z).

Lemma Depth_formula p :
  Depth p
  = Count p slash - (if IsAbsolute p then 1 else 0) + Count p lbrack.
Proof.
  unfold Depth, IsRoot. case_bool_decide as Hr; [|done]. by subst.
Qed.

Lemma Depth_nonneg p : 0 <= Depth p.
Proof.
  rewrite Depth_formula. pose proof (Count_nonneg p lbrack).
  destruct (IsAbsolute p) eqn:Ha.
  - apply HasPrefix_slash in Ha as [t ->].
    change (Count (slash :: t) slash) with (1 + Count t slash).
    pose proof (Count_nonneg t slash). lia.
  - pose proof (Count_nonneg p slash). lia.
Qed.

Lemma Depth_DownIndex p i : Depth (DownIndex p i) = Depth p + 1.
Proof.
  pose proof (plain_notin _ (fmt_d_plain i)) as (Hs & Hb & _).
  rewrite !Depth_formula. unfold DownIndex.
  rewrite !Count_app, (Count_notin (fmt.d i) slash), (Count_notin (fmt.d i) lbrack) by done.
  replace (IsAbsolute (p ++ [lbrack] ++ fmt.d i ++ [rbrack])) with (IsAbsolute p)
    by (by destruct p).
  change (Count [lbrack] slash) with 0. change (Count [rbrack] slash) with 0.
  change (Count [lbrack] lbrack) with 1. change (Count [rbrack] lbrack) with 0.
  lia.
Qed.

Lemma Depth_field p n :
  p <> [] -> slash ∉ n -> lbrack ∉ n ->
  Depth (p ++ slash :: n) = Count p slash - (if IsAbsolute p then 1 else 0) + Count p lbrack + 1.
Proof.
  intros Hp Hs Hb. rewrite Depth_formula, IsAbsolute_app by done.
  rewrite !Count_app.
  change (Count (slash :: n) slash) with (1 + Count n slash).
  change (Count (slash :: n) lbrack) with (0 + Count n lbrack).
  rewrite (Count_notin n slash), (Count_notin n lbrack) by done. lia.
Qed.

Lemma Depth_field_root n : slash ∉ n -> lbrack ∉ n -> Depth (slash :: n) = 0.
Proof.
  intros Hs Hb. rewrite Depth_formula.
  change (IsAbsolute (slash :: n)) with true.
  change (Count (slash :: n) slash) with (1 + Count n slash).
  change (Count (slash :: n) lbrack) with (0 + Count n lbrack).
  rewrite (Count_notin n slash), (Count_notin n lbrack) by done. done.
Qed.

Lemma Built_absolute p : Built p -> exists t, p = slash :: t.
Proof.
  induction 1 as [|p n p' _ [t ->] Hd|p i _ [t ->]].
  - by exists [].
  - apply DownField_Some in Hd as [_ ->]. destruct (IsRoot _); eauto.
  - unfold DownIndex. simpl. eauto.
Qed.

Lemma Built_nonempty p : Built p -> p <> [].
Proof. by intros [t ->]%Built_absolute. Qed.

End DepthFacts.

(** ** Descending, ascending and depth *)

Section PathClaims.
Import strings.
Implicit Types (p : Path) (n : gostring) (i : Z).

Lemma DownField_valid p n :
  isValidFieldName n = true ->
  DownField p n = Some (if IsRoot p then p ++ n else p ++ PathSeparator ++ n).
Proof.
  intros Hv. unfold DownField. rewrite Hv. simpl.
  unfold IsRoot. case_bool_decide as Hr; [by subst|].
  by rewrite andb_false_r.
Qed.

Lemma DownField_None p n :
  DownField p n = None <-> isValidFieldName n = false.
Proof.
  unfold DownField. destruct (isValidFieldName n); simpl.
  - split; [|done]. by destruct (IsAbsolute p && IsRoot p).
  - done.
Qed.

Lemma Up_DownField p n p' :
  p <> [] -> DownField p n = Some p' -> Up p' = p.
Proof.
  intros Hp [Hv ->]%DownField_Some.
  apply isValidFieldName_true in Hv as (Hs & Hb & _).
  destruct (IsRoot p) eqn:Hr.
  - apply bool_decide_eq_true in Hr as ->. by apply Up_field_root.
  - by apply Up_field.
Qed.

Lemma Up_root : Up NewPath = NewPath.
Proof. reflexivity. Qed.

Lemma Depth_DownField p n p' :
  p <> [] -> IsRoot p = false -> DownField p n = Some p' ->
  Depth p' = Depth p + 1.
Proof.
  intros Hp Hr [Hv ->]%DownField_Some. rewrite Hr.
  apply isValidFieldName_true in Hv as (Hs & Hb & _).
  rewrite Depth_field by done. by rewrite Depth_formula.
Qed.

Lemma Depth_DownField_root n p' :
  DownField NewPath n = Some p' -> Depth p' = 0.
Proof.
  intros [Hv ->]%DownField_Some.
  apply isValidFieldName_true in Hv as (Hs & Hb & _).
  by apply Depth_field_root.
Qed.

Lemma UpTimes_succ k p : UpTimes (S k) p = UpTimes k (Up p).
Proof. unfold UpTimes. apply Nat.iter_succ_r. Qed.

Lemma UpTimes_root k : UpTimes k NewPath = NewPath.
Proof. induction k as [|k IH]; [done|]. by rewrite UpTimes_succ, Up_root. Qed.

Lemma Built_up_to_root p :
  Built p -> UpTimes (Z.to_nat (Depth p) + 1) p = NewPath.
Proof.
  induction 1 as [|p n p' Hb IH Hd|p i Hb IH].
  - apply UpTimes_root.
  - pose proof (Built_nonempty _ Hb) as Hp.
    destruct (IsRoot p) eqn:Hr.
    + apply bool_decide_eq_true in Hr as ->.
      rewrite (Depth_DownField_root _ _ Hd).
      change (Z.to_nat 0 + 1)%nat with 1%nat.
      by rewrite UpTimes_succ, (Up_DownField _ _ _ Hp Hd).
    + rewrite (Depth_DownField _ _ _ Hp Hr Hd).
      pose proof (Depth_nonneg p).
      replace (Z.to_nat (Depth p + 1) + 1)%nat
        with (S (Z.to_nat (Depth p) + 1)) by lia.
      by rewrite UpTimes_succ, (Up_DownField _ _ _ Hp Hd).
  - rewrite Depth_DownIndex. pose proof (Depth_nonneg p).
    replace (Z.to_nat (Depth p + 1) + 1)%nat
      with (S (Z.to_nat (Depth p) + 1)) by lia.
    by rewrite UpTimes_succ, Up_index.
Qed.

(** C4 (as amended): descending then ascending is the identity.  For
    every path [p] other than the empty string and every field name free
    of the separator and the brackets, [p.DownField(n)] succeeds and
    [p.DownField(n).Up().IsEqual(p)]; for every path [p] and every [i],
    [p.DownIndex(i).Up().IsEqual(p)]; and [root.Up()] is the root. *)
Theorem Up_after_down p :
  (forall n, p <> [] -> isValidFieldName n = true ->
     exists p', DownField p n = Some p' /\ IsEqual (Up p') p = true)
  /\ (forall i, IsEqual (Up (DownIndex p i)) p = true)
  /\ Up NewPath = NewPath.
Proof.
  split; [|split].
  - intros n Hp Hv. eexists. split; [by apply DownField_valid|].
    apply bool_decide_eq_true.
    eapply Up_DownField; [done|]. by apply DownField_valid.
  - intros i. apply bool_decide_eq_true, Up_index.
  - apply Up_root.
Qed.

Lemma Up_after_down_witness :
  exists p', DownField (str "/a[0]") (str "b") = Some p'
             /\ IsEqual (Up p') (str "/a[0]") = true.
Proof.
  apply (proj1 (Up_after_down (str "/a[0]")) (str "b")).
  - discriminate.
  - reflexivity.
Defined.

(** C4 as stated fails on the empty path, the zero value of [Path] and
    what [Up] returns on a relative path of one segment: [DownField("a")]
    of the empty path is ["/a"], whose parent is the root. *)
Lemma Up_after_down_empty_path :
  DownField [] (str "a") = Some (str "/a")
  /\ isValidFieldName (str "a") = true
  /\ IsEqual (Up (str "/a")) [] = false.
Proof. by vm_compute. Qed.

Lemma Built_a_b_3 : Built (str "/a/b[3]").
Proof.
  change (str "/a/b[3]") with (DownIndex (str "/a/b") 3).
  apply Built_index.
  apply (Built_field (str "/a") (str "b")); [|reflexivity].
  apply (Built_field NewPath (str "a")); [|reflexivity].
  apply Built_root.
Qed.

(** C3 (as amended): for every absolute path [p] built from the root
    via [DownField]/[DownIndex], applying [Up()] [p.Depth() + 1] times
    yields the root path, and applying [Up()] one further time still
    yields the root. *)
Theorem Up_reaches_root p :
  Built p ->
  UpTimes (Z.to_nat (Depth p) + 1) p = NewPath
  /\ Up (UpTimes (Z.to_nat (Depth p) + 1) p) = NewPath.
Proof.
  intros Hb. rewrite (Built_up_to_root _ Hb). split; [done|apply Up_root].
Qed.

Lemma Up_reaches_root_witness :
  UpTimes (Z.to_nat (Depth (str "/a/b[3]")) + 1) (str "/a/b[3]") = NewPath
  /\ Up (UpTimes (Z.to_nat (Depth (str "/a/b[3]")) + 1) (str "/a/b[3]"))
     = NewPath.
Proof. apply (Up_reaches_root (str "/a/b[3]")). exact Built_a_b_3. Defined.

(** C3 as stated fails on a field directly under the root: ["/a"] has
    depth 0, so [Depth()] calls of [Up] leave it where it is. *)
Lemma Up_Depth_times_stays_below_root :
  DownField NewPath (str "a") = Some (str "/a")
  /\ Depth (str "/a") = 0
  /\ UpTimes (Z.to_nat (Depth (str "/a"))) (str "/a") = str "/a"
  /\ UpTimes (Z.to_nat (Depth (str "/a"))) (str "/a") <> NewPath.
Proof. repeat split; by vm_compute. Qed.

(** C5: [Depth] is 0 for the root and for a field directly under the
    root; every further field level and every index marker adds exactly
    1; so [Depth] is the number of separators, minus one for the leading
    separator of an absolute path, plus the number of index markers, and
    [/a[0][1][2]] has depth 3. *)
Theorem Depth_counts :
  Depth NewPath = 0
  /\ (forall n p', DownField NewPath n = Some p' -> Depth p' = 0)
  /\ (forall p n p', p <> [] -> IsRoot p = false ->
        DownField p n = Some p' -> Depth p' = Depth p + 1)
  /\ (forall p i, Depth (DownIndex p i) = Depth p + 1)
  /\ (forall p, Depth p
                = Count p slash - (if IsAbsolute p then 1 else 0)
                  + Count p lbrack)
  /\ Depth (str "/a[0][1][2]") = 3.
Proof.
  repeat split.
  - apply Depth_DownField_root.
  - apply Depth_DownField.
  - apply Depth_DownIndex.
  - apply Depth_formula.
Qed.

Lemma Depth_counts_witness :
  Depth (str "/a") = 0 /\ Depth (str "/a/b") = Depth (str "/a") + 1.
Proof.
  destruct Depth_counts as (_ & Hroot & Hfield & _). split.
  - apply (Hroot (str "a")). reflexivity.
  - apply (Hfield (str "/a") (str "b")); [discriminate|reflexivity..].
Defined.

(** C8: [DownField(name)] panics if and only if [name] contains the
    separator or one of the brackets; for every other name, the empty
    one included, it returns the receiver followed by the name (at the
    root) or by the separator and the name (elsewhere).  The receiver is
    a value and is not changed. *)
Theorem DownField_panics_iff p n :
  (DownField p n = None <-> slash ∈ n \/ lbrack ∈ n \/ rbrack ∈ n)
  /\ ((slash ∉ n) /\ (lbrack ∉ n) /\ (rbrack ∉ n) ->
      DownField p n
      = Some (if IsRoot p then p ++ n else p ++ PathSeparator ++ n))
  /\ DownField p [] = Some (if IsRoot p then p else p ++ PathSeparator).
Proof.
  split; [|split].
  - rewrite DownField_None, <- not_true_iff_false, isValidFieldName_true.
    split.
    + intros H.
      destruct (decide (slash ∈ n)); [tauto|].
      destruct (decide (lbrack ∈ n)); [tauto|].
      destruct (decide (rbrack ∈ n)); tauto.
    + tauto.
  - intros H. by apply DownField_valid, isValidFieldName_true.
  - rewrite DownField_valid by done. destruct (IsRoot p); [|done].
    by rewrite app_nil_r.
Qed.

Lemma DownField_panics_iff_witness :
  DownField (str "/a") (str "b c") = Some (str "/a/b c").
Proof.
  apply (proj1 (proj2 (DownField_panics_iff (str "/a") (str "b c")))).
  repeat split; compute_done.
Defined.

End PathClaims.

(** ** [Index] and [EachComponent] below the first segment *)

(** A path that is not an array element has index -1. *)
Lemma Index_not_array p : IsArrayElement p = false -> Index p = Some (-1).
Proof. intros H. unfold Index. by rewrite H. Qed.

(** C2: on [root.DownField("a").DownField("b").DownIndex(3)] the source
    returns 0 from [Index()], not 3: the offsets of the marker are taken in
    the last segment ["b[3]"] and applied to the whole path ["/a/b[3]"],
    where they select ["b"], which [Atoi] rejects. *)
Theorem Index_below_first_segment :
  DownField NewPath (str "a") = Some (str "/a")
  /\ DownField (str "/a") (str "b") = Some (str "/a/b")
  /\ DownIndex (str "/a/b") 3 = str "/a/b[3]"
  /\ slice (str "/a/b[3]") 3 4 = Some (str "b")
  /\ Index (str "/a/b[3]") = Some 0.
Proof. repeat split; by vm_compute. Qed.

(** The example of the specification: the components of
    [root.DownField("a").DownIndex(1).DownIndex(4)]. *)
Lemma components_a_1_4 :
  EachComponent (DownIndex (DownIndex (str "/a") 1) 4)
    (logField (fun _ => true)) (logIndex (fun _ => true)) []
  = ([FieldC (str "a"); IndexC 1; IndexC 4], Some true).
Proof. by vm_compute. Qed.

(** C6: on [root.DownField("a").DownField("b").DownIndex(3)] the source
    invokes the callbacks with field ["a"], field ["b"] and index 0: the
    index marker [[3]] is reported as 0. *)
Theorem EachComponent_below_first_segment :
  DownField NewPath (str "a") = Some (str "/a")
  /\ DownField (str "/a") (str "b") = Some (str "/a/b")
  /\ DownIndex (str "/a/b") 3 = str "/a/b[3]"
  /\ EachComponent (str "/a/b[3]")
       (logField (fun _ => true)) (logIndex (fun _ => true)) []
     = ([FieldC (str "a"); FieldC (str "b"); IndexC 0], Some true).
Proof. repeat split; by vm_compute. Qed.

(** ** [Up] stays in bounds and shortens the path *)

Section UpFacts.
Import strings.
Implicit Types (p s : gostring) (sep : ascii).

Lemma Join_snoc (l : list gostring) x (sp : gostring) :
  Join (l ++ [x]) sp
  = match l with [] => x | _ :: _ => Join l sp ++ sp ++ x end.
Proof.
  induction l as [|a l IH]; [done|].
  change (Join ((a :: l) ++ [x]) sp)
    with (match l ++ [x] with [] => a | _ :: _ => a ++ sp ++ Join (l ++ [x]) sp end).
  rewrite IH. destruct l as [|b l]; [done|].
  simpl app at 1. cbv iota.
  change (Join (a :: b :: l) sp) with (a ++ sp ++ Join (b :: l) sp).
  by rewrite <- !app_assoc.
Qed.

(** A string is what precedes its last piece, then the last piece. *)
Lemma Split_decompose s sep :
  s = match removelast (Split s sep) with
      | [] => List.last (Split s sep) []
      | _ :: _ =>
          Join (removelast (Split s sep)) [sep]
          ++ sep :: List.last (Split s sep) []
      end.
Proof.
  rewrite <- (Join_Split s sep) at 1.
  rewrite (app_removelast_last [] (Split_nonempty s sep)) at 1.
  rewrite Join_snoc. by destruct (removelast (Split s sep)).
Qed.

Lemma lastPart_suffix p : exists pre, p = pre ++ lastPart p.
Proof.
  unfold lastPart. pose proof (Split_decompose p slash) as H.
  destruct (removelast (Split p slash)).
  - by exists [].
  - eexists. rewrite H at 1. by rewrite (cons_middle slash), app_assoc.
Qed.

Lemma elem_of_lastPart c p : c ∈ lastPart p -> c ∈ p.
Proof.
  intros Hc. destruct (lastPart_suffix p) as [pre ->].
  apply elem_of_app. by right.
Qed.

Lemma length_lastPart p : (length (lastPart p) <= length p)%nat.
Proof.
  destruct (lastPart_suffix p) as [pre H]. rewrite H at 2.
  rewrite length_app. lia.
Qed.

Lemma IsArrayElement_true p :
  IsArrayElement p = true -> IsRoot p = false /\ lbrack ∈ lastPart p.
Proof.
  unfold IsArrayElement. destruct (IsRoot p); [done|].
  rewrite negb_true_iff, bool_decide_eq_false. intros H. split; [done|].
  destruct (decide (lbrack ∈ lastPart p)) as [|Hn]; [done|].
  by apply Index_notin in Hn.
Qed.

(** The slice [string(p)[0:index]] of [Up] is in bounds. *)
Lemma Up_index_in_bounds p :
  IsArrayElement p = true ->
  0 <= LastIndex p lbrack /\ LastIndex p lbrack <= len p.
Proof.
  intros [_ Hin%elem_of_lastPart]%IsArrayElement_true.
  pose proof (LastIndex_bounds p lbrack).
  destruct (decide (LastIndex p lbrack = -1)) as [E|]; [|lia].
  by apply LastIndex_notin in E.
Qed.

Lemma length_Split_absolute p :
  IsAbsolute p = true -> (2 <= length (Split p slash))%nat.
Proof.
  intros [t ->]%HasPrefix_slash.
  change (Split (slash :: t) slash) with ([] :: Split t slash).
  pose proof (Split_nonempty t slash). destruct (Split t slash); [done|].
  simpl. lia.
Qed.

(** The slices [parts[1:len(parts)-1]] and [parts[0:len(parts)-1]] of
    [Up] are in bounds. *)
Lemma Up_parts_in_bounds p :
  (0 <= length (Split p slash) - 1)%nat
  /\ (IsAbsolute p = true -> 1 <= length (Split p slash) - 1)%nat.
Proof.
  split; [lia|]. intros H%length_Split_absolute. lia.
Qed.

Lemma length_Join_removelast s sep :
  s <> [] ->
  (length (Join (removelast (Split s sep)) [sep]) < length s)%nat.
Proof.
  intros Hs. pose proof (Split_decompose s sep) as H.
  destruct (removelast (Split s sep)) as [|a l] eqn:E.
  - simpl. destruct s; [done|]. simpl. lia.
  - apply (f_equal length) in H. rewrite length_app, length_cons in H. lia.
Qed.

Lemma slice_parts_removelast (l : list gostring) :
  slice_parts l 0 (length l - 1) = removelast l.
Proof.
  unfold slice_parts. rewrite drop_0, Nat.sub_0_r.
  destruct (decide (l = [])) as [->|Hl]; [done|].
  rewrite (app_removelast_last [] Hl) at 1 2.
  rewrite length_app. simpl.
  replace (length (removelast l) + 1 - 1)%nat with (length (removelast l)) by lia.
  apply take_app_length.
Qed.

Lemma slice_parts_tail_removelast x (l : list gostring) :
  slice_parts (x :: l) 1 (length (x :: l) - 1) = removelast l.
Proof.
  unfold slice_parts. simpl length. simpl drop. rewrite drop_0.
  replace (S (length l) - 1 - 1)%nat with (length l - 1)%nat by lia.
  pose proof (slice_parts_removelast l) as H. unfold slice_parts in H.
  by rewrite drop_0, Nat.sub_0_r in H.
Qed.

(** Each round of the first loop of [EachComponent] shortens the path. *)
Lemma Up_shorter p :
  IsRoot p = false -> p <> [] -> (length (Up p) < length p)%nat.
Proof.
  intros Hr Hp. unfold Up. rewrite Hr.
  destruct (IsArrayElement p) eqn:Ha.
  - pose proof (Up_index_in_bounds p Ha).
    pose proof (LastIndex_bounds p lbrack). unfold len in *.
    rewrite length_take. lia.
  - destruct (IsAbsolute p) eqn:Hab.
    + apply HasPrefix_slash in Hab as [t ->].
      change (Split (slash :: t) slash) with ([] :: Split t slash).
      rewrite slice_parts_tail_removelast. simpl.
      assert (t <> []) as Ht.
      { intros ->. unfold IsRoot in Hr. by apply bool_decide_eq_false in Hr. }
      pose proof (length_Join_removelast t slash Ht).
      unfold PathSeparator. lia.
    + rewrite slice_parts_removelast.
      apply (length_Join_removelast p slash Hp).
Qed.

(** The fuel of [ancestors] never runs out: any fuel from [length p] on
    gives the same list, and the list ends at the root or at the empty
    path. *)
Lemma ancestors_fuel fuel1 fuel2 p :
  (length p <= fuel1)%nat -> (length p <= fuel2)%nat ->
  ancestors fuel1 p = ancestors fuel2 p.
Proof.
  revert fuel2 p. induction fuel1 as [|fuel1 IH]; intros fuel2 p H1 H2.
  - destruct p; [|simpl in H1; lia]. by destruct fuel2.
  - destruct fuel2 as [|fuel2].
    { destruct p; [|simpl in H2; lia]. done. }
    simpl. destruct (IsRoot p) eqn:Hr; [done|].
    case_bool_decide as Hl; [done|]. simpl.
    assert (p <> []) as Hp by (by destruct p).
    pose proof (Up_shorter p Hr Hp).
    f_equal. apply IH; lia.
Qed.

Lemma ancestors_unfold p :
  ancestors (length p) p
  = if IsRoot p || bool_decide (p = []) then []
    else p :: ancestors (length (Up p)) (Up p).
Proof.
  destruct (IsRoot p) eqn:Hr.
  - apply bool_decide_eq_true in Hr as ->. done.
  - destruct p as [|c p]; [done|].
    rewrite bool_decide_false by done.
    pose proof (Up_shorter (c :: p) Hr ltac:(done)) as Hlt.
    simpl length in *. simpl ancestors. rewrite Hr. simpl.
    f_equal. apply ancestors_fuel; lia.
Qed.

End UpFacts.

(** ** Paths on which [EachComponent] completes *)

Section ResolvableFacts.
Implicit Types (p : Path) (n : gostring) (i : Z).

Lemma IsArrayElement_field p n :
  slash ∉ n -> lbrack ∉ n -> IsArrayElement (p ++ slash :: n) = false.
Proof.
  intros Hs Hb. unfold IsArrayElement. destruct (IsRoot _); [done|].
  unfold lastPart. rewrite last_Split_app_sep by done.
  by rewrite bool_decide_true by (by apply Index_notin).
Qed.

Lemma Resolvable_unfold p :
  Resolvable p <->
  IsRoot p = true \/ p = [] \/ (is_Some (Index p) /\ Resolvable (Up p)).
Proof.
  unfold Resolvable. rewrite (ancestors_unfold p).
  destruct (IsRoot p) eqn:Hr; simpl.
  { split; [by left|]. intros _. constructor. }
  case_bool_decide as Hp.
  { split; [by right; left|]. intros _. constructor. }
  rewrite Forall_cons. split; [by right; right|].
  by intros [|[|]].
Qed.

Lemma Resolvable_root : Resolvable NewPath.
Proof. apply Resolvable_unfold. by left. Qed.

Lemma Resolvable_empty : Resolvable [].
Proof. apply Resolvable_unfold. by right; left. Qed.

Lemma Resolvable_DownField p n p' :
  Resolvable p -> DownField p n = Some p' -> Resolvable p'.
Proof.
  intros Hres Hd. apply Resolvable_unfold.
  destruct (IsRoot p') eqn:Hr'; [by left|]. right; right.
  pose proof Hd as [Hv Hp']%DownField_Some.
  apply isValidFieldName_true in Hv as (Hs & Hb & _).
  assert (IsArrayElement p' = false) as Ha.
  { subst p'. destruct (IsRoot p) eqn:Hr.
    - apply bool_decide_eq_true in Hr as ->.
      apply (IsArrayElement_field [] n Hs Hb).
    - by apply IsArrayElement_field. }
  split; [rewrite (Index_not_array _ Ha); by eexists|].
  destruct (decide (p = [])) as [->|Hp].
  - subst p'. simpl. rewrite (Up_field_root n Hs Hb). apply Resolvable_root.
  - by rewrite (Up_DownField _ _ _ Hp Hd).
Qed.

Lemma Index_DownIndex_defined p i : is_Some (Index (DownIndex p i)).
Proof.
  pose proof (plain_notin _ (fmt_d_plain i)) as (Hs & Hb & Hrb).
  unfold Index. destruct (IsArrayElement _); simpl; [|by eexists].
  unfold DownIndex, lastPart.
  rewrite last_Split_app_no_sep.
  2:{ solve_notin. }
  fold (lastPart p). simpl app.
  rewrite LastIndex_app.
  2:{ solve_notin. }
  replace (lastPart p ++ lbrack :: fmt.d i ++ [rbrack])
    with ((lastPart p ++ lbrack :: fmt.d i) ++ rbrack :: [])
    by (by rewrite <- app_assoc).
  rewrite LastIndex_app by apply not_elem_of_nil.
  unfold slice. rewrite bool_decide_true; [by eexists|].
  pose proof (length_lastPart p).
  unfold len. rewrite !length_app. simpl length. rewrite !length_app.
  simpl length. lia.
Qed.

Lemma Resolvable_DownIndex p i : Resolvable p -> Resolvable (DownIndex p i).
Proof.
  intros Hres. apply Resolvable_unfold. right; right.
  rewrite Up_index. split; [apply Index_DownIndex_defined|done].
Qed.

Lemma Built_Resolvable p : Built p -> Resolvable p.
Proof.
  induction 1.
  - apply Resolvable_root.
  - by eapply Resolvable_DownField.
  - by apply Resolvable_DownIndex.
Qed.

(** On such a path [EachComponent] returns, and it returns [true] when
    no callback stops it. *)
Lemma replay_completes {S} parts (f : gostring -> S -> S * bool)
    (g : Z -> S -> S * bool) s :
  Forall (fun part => is_Some (Index part)) parts ->
  is_Some (snd (replay parts f g s)).
Proof.
  intros H. revert s. induction H as [|part parts [x Hx] _ IH]; intros s; simpl.
  - by eexists.
  - destruct (IsArrayElement part).
    + rewrite Hx. destruct (g x s) as [s' []]; [apply IH|by eexists].
    + destruct (f (FieldName part) s) as [s' []]; [apply IH|by eexists].
Qed.

Lemma EachComponent_completes {S} p (f : gostring -> S -> S * bool)
    (g : Z -> S -> S * bool) s :
  Resolvable p -> is_Some (snd (EachComponent p f g s)).
Proof.
  intros H. apply replay_completes. by apply Forall_rev.
Qed.

(** What the callbacks keep, [EachComponent] keeps. *)
Lemma replay_preserves {S} (P : S -> Prop) parts
    (f : gostring -> S -> S * bool) (g : Z -> S -> S * bool) s :
  (forall n s, P s -> P (fst (f n s))) ->
  (forall i s, P s -> P (fst (g i s))) ->
  P s -> P (fst (replay parts f g s)).
Proof.
  intros Hf Hg. revert s. induction parts as [|part parts IH]; intros s Hs; simpl.
  - done.
  - destruct (IsArrayElement part).
    + destruct (Index part) as [x|]; [|done].
      specialize (Hg x s Hs). destruct (g x s) as [s' []]; [by apply IH|done].
    + specialize (Hf (FieldName part) s Hs).
      destruct (f (FieldName part) s) as [s' []]; [by apply IH|done].
Qed.

End ResolvableFacts.

(** ** Where [Index] is right: markers of the first segment *)

Section AtoiFacts.

Lemma digits_of_uint_acc u (a : positive) :
  strconv.digits (list_ascii_of_string (NilEmpty.string_of_uint u)) (Z.pos a)
  = Some (Z.pos (Pos.of_uint_acc u a)).
Proof.
  revert a. induction u; intros a; simpl; [done|..];
    (etrans; [|apply IHu]); f_equal; lia.
Qed.

Lemma digits_of_uint u :
  strconv.digits (list_ascii_of_string (NilEmpty.string_of_uint u)) 0
  = Some (Z.of_uint u).
Proof.
  induction u; simpl; [done|exact IHu|..]; apply digits_of_uint_acc.
Qed.

Lemma string_of_uint_head u :
  match list_ascii_of_string (NilZero.string_of_uint u) with
  | [] => Logic.False
  | c :: _ => c <> "-"%char /\ c <> "+"%char
  end.
Proof. by destruct u. Qed.

Lemma digits_NilZero u :
  strconv.digits (list_ascii_of_string (NilZero.string_of_uint u)) 0
  = Some (Z.of_uint u).
Proof. destruct u; try apply digits_of_uint. done. Qed.

(** [Atoi] reads back what [%d] prints, for every [int]. *)
Lemma Atoi_fmt_d i :
  strconv.minInt <= i <= strconv.maxInt -> strconv.Atoi (fmt.d i) = (i, true).
Proof.
  intros Hi. unfold fmt.d, strconv.Atoi.
  pose proof (DecimalZ.of_to i) as Hof.
  destruct (Z.to_int i) as [u|u]; simpl NilZero.string_of_int.
  - pose proof (string_of_uint_head u) as Hh.
    pose proof (digits_NilZero u) as Hd.
    destruct (list_ascii_of_string (NilZero.string_of_uint u)) as [|c s];
      [done|]. destruct Hh as [Hm Hp].
    rewrite !bool_decide_false by done. cbv beta iota. rewrite Hd.
    simpl in Hof. rewrite Hof. cbv beta iota.
    by rewrite !bool_decide_false by lia.
  - simpl list_ascii_of_string. cbv beta iota.
    rewrite bool_decide_true by done.
    pose proof (string_of_uint_head u) as Hh.
    pose proof (digits_NilZero u) as Hd.
    destruct (list_ascii_of_string (NilZero.string_of_uint u)) as [|c s];
      [done|].
    cbv beta iota. rewrite Hd. simpl in Hof. cbv beta iota.
    destruct (Z.of_uint u) eqn:E; simpl in Hof; subst i;
      by rewrite !bool_decide_false by lia.
Qed.

Lemma IsArrayElement_DownIndex p i : IsArrayElement (DownIndex p i) = true.
Proof.
  pose proof (plain_notin _ (fmt_d_plain i)) as (Hs & Hb & _).
  unfold IsArrayElement. rewrite IsRoot_DownIndex. unfold DownIndex.
  unfold lastPart. rewrite last_Split_app_no_sep.
  2:{ solve_notin. }
  rewrite bool_decide_false; [done|].
  rewrite Index_notin. intros H. apply H. set_solver.
Qed.

(** On a path of one segment, [Index] returns the index that [DownIndex]
    was given: there the offsets in the last part and in the whole path
    differ by the leading separator only, which the constants 2 and 1 of
    the source make up for. *)
Lemma Index_first_segment q i :
  slash ∉ q -> strconv.minInt <= i <= strconv.maxInt ->
  Index (DownIndex (slash :: q) i) = Some i.
Proof.
  intros Hq Hi.
  pose proof (plain_notin _ (fmt_d_plain i)) as (Hs & Hb & Hrb).
  unfold Index. rewrite IsArrayElement_DownIndex. simpl negb. cbv iota.
  assert (lastPart (DownIndex (slash :: q) i)
          = q ++ lbrack :: fmt.d i ++ [rbrack]) as ->.
  { unfold lastPart, DownIndex.
    change ((slash :: q) ++ [lbrack] ++ fmt.d i ++ [rbrack])
      with ([] ++ slash :: (q ++ lbrack :: fmt.d i ++ [rbrack])).
    apply last_Split_app_sep.
    solve_notin. }
  rewrite LastIndex_app.
  2:{ solve_notin. }
  replace (q ++ lbrack :: fmt.d i ++ [rbrack])
    with ((q ++ lbrack :: fmt.d i) ++ rbrack :: [])
    by (by rewrite <- app_assoc).
  rewrite LastIndex_app by apply not_elem_of_nil.
  unfold slice, DownIndex, len.
  repeat first [rewrite length_app | rewrite length_cons]. simpl length.
  rewrite bool_decide_true by lia.
  replace (Z.to_nat (Z.of_nat (length q) + 2)) with (S (length q + 1)) by lia.
  replace (Z.to_nat (Z.of_nat (length q + S (length (fmt.d i))) + 1
                     - (Z.of_nat (length q) + 2)))
    with (length (fmt.d i)) by lia.
  simpl drop.
  replace (q ++ lbrack :: fmt.d i ++ [rbrack])
    with ((q ++ [lbrack]) ++ fmt.d i ++ [rbrack])
    by (by rewrite <- app_assoc).
  rewrite drop_app_length' by (rewrite length_app; simpl; lia).
  rewrite take_app_length. by rewrite Atoi_fmt_d.
Qed.

End AtoiFacts.

(** ** The number of errors in a tree *)

Section TreeFacts.
Import Node.
Implicit Types (n parent : ErrorNode) (c : Component).

Lemma totalErrors_eq n :
  totalErrors n
  = (length (default [] (errs n)) + childErrors (NamedChildren n)
     + childErrors (NumberedChildren n))%nat.
Proof. by destruct n as [[?|] [?|] ?]. Qed.

Lemma childErrors_insert {K} `{Countable K} (m : gmap K ErrorNode) k v :
  childErrors (Some (<[k:=v]> m))
  = (totalErrors v + childErrors (Some (delete k m)))%nat.
Proof.
  unfold childErrors. rewrite <- (insert_delete_eq m k v).
  rewrite map_fold_insert_L.
  - lia.
  - intros. lia.
  - apply lookup_delete_eq.
Qed.

Lemma childErrors_default {K} `{Countable K} (m : option (gmap K ErrorNode)) :
  childErrors (Some (default ∅ m)) = childErrors m.
Proof. destruct m; [done|]. unfold childErrors. simpl. apply map_fold_empty. Qed.

Lemma totalErrors_setChild parent c n :
  totalErrors (setChild parent c n)
  = (totalErrors n + holeErrors parent c)%nat.
Proof.
  unfold holeErrors.
  rewrite (totalErrors_eq (setChild parent c n)).
  rewrite (totalErrors_eq (setChild parent c NewErrorNode)).
  destruct c as [name|index];
    cbn [setChild NamedChildren NumberedChildren errs];
    rewrite !childErrors_insert;
    change (totalErrors NewErrorNode) with 0%nat; lia.
Qed.

Lemma setChild_setChild parent c n n' :
  setChild (setChild parent c n) c n' = setChild parent c n'.
Proof.
  destruct c; unfold setChild; simpl; by rewrite insert_insert_eq.
Qed.

Lemma holeErrors_setChild parent c n :
  holeErrors (setChild parent c n) c = holeErrors parent c.
Proof. unfold holeErrors. by rewrite setChild_setChild. Qed.

Lemma totalErrors_plug n ctx :
  totalErrors (plug n ctx) = (totalErrors n + ctxErrors ctx)%nat.
Proof.
  revert n. induction ctx as [|[parent c] ctx IH]; intros n; simpl.
  - lia.
  - rewrite IH, totalErrors_setChild. lia.
Qed.

(** Creating a missing child, or finding the one that is there, stores
    no error. *)
Lemma totalErrors_setChild_named n name :
  totalErrors (setChild n (FieldC name)
                 (default NewErrorNode (lookupNamed n name)))
  = totalErrors n.
Proof.
  rewrite (totalErrors_eq (setChild _ _ _)), (totalErrors_eq n).
  cbn [setChild NamedChildren NumberedChildren errs].
  rewrite childErrors_insert. unfold lookupNamed.
  rewrite <- (childErrors_default (NamedChildren n)).
  destruct (default ∅ (NamedChildren n) !! name) as [e|] eqn:E; simpl.
  - unfold childErrors.
    rewrite (map_fold_delete_L _ _ name e (default ∅ (NamedChildren n)));
      [lia|intros; lia|done].
  - rewrite delete_id by done. change (totalErrors NewErrorNode) with 0%nat. lia.
Qed.

Lemma totalErrors_setChild_numbered n index :
  totalErrors (setChild n (IndexC index)
                 (default NewErrorNode (lookupNumbered n index)))
  = totalErrors n.
Proof.
  rewrite (totalErrors_eq (setChild _ _ _)), (totalErrors_eq n).
  cbn [setChild NamedChildren NumberedChildren errs].
  rewrite childErrors_insert. unfold lookupNumbered.
  rewrite <- (childErrors_default (NumberedChildren n)).
  destruct (default ∅ (NumberedChildren n) !! index) as [e|] eqn:E; simpl.
  - unfold childErrors.
    rewrite (map_fold_delete_L _ _ index e (default ∅ (NumberedChildren n)));
      [lia|intros; lia|done].
  - rewrite delete_id by done. change (totalErrors NewErrorNode) with 0%nat. lia.
Qed.

Lemma totalErrors_DownField name cur :
  totalErrors (root (DownField name cur)) = totalErrors (root cur).
Proof.
  unfold root, DownField. cbn [node above plug].
  rewrite setChild_setChild, !totalErrors_plug.
  fold (default NewErrorNode (lookupNamed (node cur) name)).
  by rewrite totalErrors_setChild_named.
Qed.

Lemma totalErrors_DownIndex index cur :
  totalErrors (root (DownIndex index cur)) = totalErrors (root cur).
Proof.
  unfold root, DownIndex. cbn [node above plug].
  rewrite setChild_setChild, !totalErrors_plug.
  fold (default NewErrorNode (lookupNumbered (node cur) index)).
  by rewrite totalErrors_setChild_numbered.
Qed.

Lemma totalErrors_Add e cur :
  totalErrors (root (Add e cur)) = S (totalErrors (root cur)).
Proof.
  unfold root, Add. cbn [node above].
  rewrite !totalErrors_plug.
  rewrite (totalErrors_eq (mkErrorNode _ _ _)), (totalErrors_eq (node cur)).
  cbn [NamedChildren NumberedChildren errs]. unfold default at 1.
  cbn [from_option id]. rewrite length_app. simpl length. lia.
Qed.

End TreeFacts.

(** ** The walk of [ErrorNode.HasErrors] *)

Section WalkFacts.

Lemma HasErrors_eq n :
  Node.HasErrors n
  = negb (bool_decide (length (default [] (errs n)) = 0%nat))
    || Node.anyChildError (NamedChildren n)
    || Node.anyChildError (NumberedChildren n).
Proof.
  destruct n as [[named|] [numbered|] es]; simpl;
    by repeat match goal with |- context [if ?b then _ else _] => destruct b end.
Qed.

Lemma childErrors_lookup {K} `{Countable K} (m : gmap K ErrorNode) k c :
  m !! k = Some c ->
  Node.childErrors (Some m)
  = (Node.totalErrors c + Node.childErrors (Some (delete k m)))%nat.
Proof.
  intros Hk. unfold Node.childErrors.
  rewrite (map_fold_delete_L _ _ k c m); [lia|intros; lia|done].
Qed.

Lemma anyChildError_insert {K} `{Countable K} (m : gmap K ErrorNode) k c :
  m !! k = None ->
  Node.anyChildError (Some (<[k:=c]> m))
  = Node.anyChildError (Some m) || Node.HasErrors c.
Proof.
  intros Hk. unfold Node.anyChildError.
  rewrite map_fold_insert_L; [done| |done].
  intros. by rewrite <- !orb_assoc, (orb_comm (Node.HasErrors z2)).
Qed.

(** A map has a child with errors exactly when two of its children, walked
    either way, say so. *)
Lemma anyChildError_childErrors {K} `{Countable K} (m : gmap K ErrorNode) :
  (forall k c, m !! k = Some c ->
     (Node.HasErrors c = true <-> Node.totalErrors c <> 0%nat)) ->
  Node.anyChildError (Some m) = true <-> Node.childErrors (Some m) <> 0%nat.
Proof.
  induction m as [|k c m Hk IH] using map_ind; intros Hall.
  - unfold Node.anyChildError, Node.childErrors.
    rewrite !map_fold_empty. split; [done|lia].
  - rewrite anyChildError_insert, childErrors_insert by done.
    rewrite delete_id by done.
    pose proof (Hall k c (lookup_insert_eq m k c)) as Hc.
    assert (Node.anyChildError (Some m) = true
            <-> Node.childErrors (Some m) <> 0%nat) as Hm.
    { apply IH. intros k' c' Hk'. apply (Hall k' c').
      rewrite lookup_insert_ne; [done|]. intros ->. congruence. }
    rewrite orb_true_iff, Hm, Hc. lia.
Qed.

(** The number of nodes of a tree bounds the recursion of the walks. *)
Lemma nodes_child_named named numbered es k c :
  named !! k = Some c ->
  (Node.nodes c < Node.nodes (mkErrorNode (Some named) numbered es))%nat.
Proof.
  intros Hk. simpl.
  rewrite (map_fold_delete_L _ _ k c named); [lia|intros; lia|done].
Qed.

Lemma nodes_child_numbered named numbered es k c :
  numbered !! k = Some c ->
  (Node.nodes c < Node.nodes (mkErrorNode named (Some numbered) es))%nat.
Proof.
  intros Hk. simpl.
  rewrite (map_fold_delete_L _ _ k c numbered); [lia|intros; lia|done].
Qed.

(** [HasErrors] finds an error exactly when the tree stores one. *)
Lemma HasErrors_totalErrors n :
  Node.HasErrors n = true <-> Node.totalErrors n <> 0%nat.
Proof.
  induction n as [n IH] using (induction_ltof1 _ Node.nodes).
  unfold ltof in IH.
  rewrite HasErrors_eq, totalErrors_eq, !orb_true_iff, negb_true_iff,
    bool_decide_eq_false.
  assert (Node.anyChildError (NamedChildren n) = true
          <-> Node.childErrors (NamedChildren n) <> 0%nat) as Hnamed.
  { destruct n as [[named|] numbered es]; simpl; [|done].
    apply anyChildError_childErrors. intros k c Hk. apply IH.
    by eapply nodes_child_named. }
  assert (Node.anyChildError (NumberedChildren n) = true
          <-> Node.childErrors (NumberedChildren n) <> 0%nat) as Hnumbered.
  { destruct n as [named [numbered|] es]; simpl; [|done].
    apply anyChildError_childErrors. intros k c Hk. apply IH.
    by eapply nodes_child_numbered. }
  rewrite Hnamed, Hnumbered. lia.
Qed.

End WalkFacts.

(** ** The cursor of an [Is] *)

Section IsFacts.
Import issers.
Implicit Types (i : Is) (wrap : Is -> result unit).

Lemma With_restored wrap i : With wrap i = restored (currentPath i) (wrap i).
Proof. unfold With, restored. by destruct (wrap i). Qed.

Lemma currentPath_restored p r : currentPath (state (restored p r)) = p.
Proof. by destruct r. Qed.

Lemma restored_frame p r :
  errorsRoot (state (restored p r)) = errorsRoot (state r)
  /\ errorsCount (state (restored p r)) = errorsCount (state r)
  /\ recorded (state (restored p r)) = recorded (state r)
  /\ panicked (restored p r) = panicked r.
Proof. by destruct r. Qed.

Lemma WithField_Some fieldName wrap i p :
  DownField (currentPath i) fieldName = Some p ->
  WithField fieldName wrap i
  = restored (currentPath i) (wrap (setCurrentPath p i)).
Proof. intros H. unfold WithField. by rewrite With_restored, H. Qed.

Lemma WithField_None fieldName wrap i :
  DownField (currentPath i) fieldName = None ->
  WithField fieldName wrap i = Panicked i.
Proof.
  intros H. unfold WithField. rewrite With_restored, H. by destruct i.
Qed.

Lemma WithIndex_restored index wrap i :
  WithIndex index wrap i
  = restored (currentPath i)
      (wrap (setCurrentPath (DownIndex (currentPath i) index) i)).
Proof. unfold WithIndex. by rewrite With_restored. Qed.

(** C9: [With], [WithField] and [WithIndex] leave the cursor as it was
    before the call, whether the callback returns or panics; the callback
    of [WithField(name, f)] runs with the cursor [DownField(name)] of the
    prior one, that of [WithIndex(i, f)] with [DownIndex(i)] of it, and
    with the other fields as they were; and the result is the one of the
    callback with no field but the cursor changed. *)
Theorem With_restores_cursor wrap i fieldName index :
  (With wrap i = restored (currentPath i) (wrap i)
   /\ currentPath (state (With wrap i)) = currentPath i)
  /\ (currentPath (state (WithField fieldName wrap i)) = currentPath i
      /\ (forall p, DownField (currentPath i) fieldName = Some p ->
            WithField fieldName wrap i
            = restored (currentPath i) (wrap (setCurrentPath p i)))
      /\ (DownField (currentPath i) fieldName = None ->
            WithField fieldName wrap i = Panicked i))
  /\ (currentPath (state (WithIndex index wrap i)) = currentPath i
      /\ WithIndex index wrap i
         = restored (currentPath i)
             (wrap (setCurrentPath (DownIndex (currentPath i) index) i)))
  /\ (forall p r,
        currentPath (state (restored p r)) = p
        /\ errorsRoot (state (restored p r)) = errorsRoot (state r)
        /\ errorsCount (state (restored p r)) = errorsCount (state r)
        /\ panicked (restored p r) = panicked r)
  /\ (forall p,
        currentPath (setCurrentPath p i) = p
        /\ errorsRoot (setCurrentPath p i) = errorsRoot i
        /\ errorsCount (setCurrentPath p i) = errorsCount i).
Proof.
  split; [|split; [|split; [|split]]].
  - split; [apply With_restored|].
    by rewrite With_restored, currentPath_restored.
  - split; [|split].
    + unfold WithField. by rewrite With_restored, currentPath_restored.
    + apply WithField_Some.
    + apply WithField_None.
  - split; [|apply WithIndex_restored].
    by rewrite WithIndex_restored, currentPath_restored.
  - intros p r. split; [apply currentPath_restored|].
    by destruct (restored_frame p r) as (? & ? & _ & ?).
  - done.
Qed.

Lemma With_restores_cursor_witness :
  WithField (str "a") (fun i => Panicked i) NewRoot
  = restored NewPath (Panicked (setCurrentPath (str "/a") NewRoot)).
Proof.
  apply (proj1 (proj2 (proj1 (proj2
           (With_restores_cursor (fun i => Panicked i) NewRoot (str "a") 0))))).
  reflexivity.
Defined.

End IsFacts.

(** ** The counter of an [Is] *)

Section CounterFacts.
Import issers.
Implicit Types (i : Is) (msg : ValidateError).

Lemma int_wrap_succ a : int_wrap (int_wrap a + 1) = int_wrap (a + 1).
Proof.
  unfold int_wrap.
  replace ((a + 2 ^ 63) `mod` 2 ^ 64 - 2 ^ 63 + 1 + 2 ^ 63)
    with ((a + 2 ^ 63) `mod` 2 ^ 64 + 1) by lia.
  rewrite Zplus_mod_idemp_l. f_equal. f_equal. lia.
Qed.

Lemma int_wrap_small a :
  strconv.minInt <= a <= strconv.maxInt -> int_wrap a = a.
Proof.
  unfold strconv.minInt, strconv.maxInt, int_wrap. intros H.
  rewrite Z.mod_small; lia.
Qed.

Lemma Consistent_NewRoot : Consistent NewRoot.
Proof. split; [apply Resolvable_root|done]. Qed.

Lemma Consistent_zero : Consistent zero.
Proof. split; [apply Resolvable_empty|done]. Qed.

Lemma Errors_setCurrentPath p i : Errors (setCurrentPath p i) = Errors i.
Proof. unfold Errors, errors. simpl. by destruct (errorsRoot i). Qed.

Lemma Consistent_setCurrentPath p i :
  Resolvable p -> Consistent i -> Consistent (setCurrentPath p i).
Proof.
  intros Hp (_ & Ht & Hc). unfold Consistent.
  by rewrite Errors_setCurrentPath.
Qed.

(** A call of [Invalid] returns, with one more error in the tree, in the
    counter and in the log, and the cursor where it was. *)
Lemma Invalid_spec msg i :
  Consistent i ->
  exists i',
    Invalid msg i = Returned tt i'
    /\ currentPath i' = currentPath i
    /\ recorded i' = recorded i ++ [(currentPath i, msg)]
    /\ Consistent i'.
Proof.
  intros (Hres & Htot & Hcnt).
  unfold Invalid, currentErrorNode.
  set (i1 := {| currentPath := currentPath i; errorsRoot := errorsRoot i;
                errorsCount := int_wrap (errorsCount i + 1);
                recorded := recorded i ++ [(currentPath i, msg)] |}).
  assert (exists i2, errors i1 = (Errors i, i2)
                     /\ currentPath i2 = currentPath i
                     /\ errorsCount i2 = errorsCount i1
                     /\ recorded i2 = recorded i1) as (i2 & -> & Hp2 & Hc2 & Hr2).
  { unfold Errors, errors. simpl. destruct (errorsRoot i); eauto. }
  rewrite Hp2.
  pose proof (EachComponent_completes (currentPath i)
                (fun fieldName n => (Node.DownField fieldName n, true))
                (fun index n => (Node.DownIndex index n, true))
                (Node.atRoot (Errors i)) Hres) as [b Hb].
  pose proof (replay_preserves
                (fun cur => Node.totalErrors (Node.root cur)
                            = Node.totalErrors (Errors i))
                (rev (ancestors (length (currentPath i)) (currentPath i)))
                (fun fieldName n => (Node.DownField fieldName n, true))
                (fun index n => (Node.DownIndex index n, true))
                (Node.atRoot (Errors i))) as Hkeep.
  fold (EachComponent (currentPath i)
          (fun fieldName n => (Node.DownField fieldName n, true))
          (fun index n => (Node.DownIndex index n, true))
          (Node.atRoot (Errors i))) in Hkeep.
  destruct (EachComponent _ _ _ _) as [n completed]. simpl in Hb, Hkeep.
  subst completed.
  eexists. split; [done|].
  unfold Consistent, Errors, errors.
  cbn [setErrorsRoot currentPath errorsRoot errorsCount recorded fst].
  rewrite Hp2, Hc2, Hr2.
  cbn [i1 currentPath errorsRoot errorsCount recorded].
  split; [done|]. split; [done|]. split; [done|]. split.
  - rewrite totalErrors_Add, length_app. simpl length.
    rewrite Nat.add_1_r. f_equal.
    rewrite <- Htot. apply Hkeep; [| |done].
    + intros name s Hs. simpl. by rewrite totalErrors_DownField.
    + intros index s Hs. simpl. by rewrite totalErrors_DownIndex.
  - rewrite Hcnt, int_wrap_succ.
    f_equal. rewrite length_app. simpl length. lia.
Qed.

End CounterFacts.

Section CallFacts.
Import issers.
Implicit Types (i : Is) (msg : msgFunc).

Lemma state_andReturn {A B} (r : result A) (v : B) :
  state (andReturn r v) = state r.
Proof. by destruct r. Qed.

Lemma Invalid_Consistent e i :
  Consistent i -> Consistent (state (Invalid e i)).
Proof. intros (i' & -> & _ & _ & H)%(Invalid_spec e). exact H. Qed.

Lemma True'_Consistent value msg i :
  Consistent i -> Consistent (state (True' value msg i)).
Proof.
  intros H. unfold True'. destruct value; simpl; [done|].
  rewrite state_andReturn. by apply Invalid_Consistent.
Qed.

Lemma False'_Consistent value msg i :
  Consistent i -> Consistent (state (False' value msg i)).
Proof. apply True'_Consistent. Qed.

Lemma Required_Consistent isPresent i :
  Consistent i -> Consistent (state (Required isPresent i)).
Proof.
  intros H. unfold Required. destruct isPresent; simpl; [done|].
  rewrite state_andReturn. by apply True'_Consistent.
Qed.

Lemma IntBetween_Consistent value low high msg i :
  Consistent i -> Consistent (state (IntBetween value low high msg i)).
Proof.
  intros H. unfold IntBetween. case_bool_decide; [done|].
  by apply True'_Consistent.
Qed.

Lemma StringLengthBetween_Consistent value low high msg i :
  Consistent i -> Consistent (state (StringLengthBetween value low high msg i)).
Proof.
  intros H. unfold StringLengthBetween. case_bool_decide; [done|].
  by apply IntBetween_Consistent.
Qed.

Lemma StringInStringSlice_Consistent value values msg i :
  Consistent i -> Consistent (state (StringInStringSlice value values msg i)).
Proof.
  intros H. unfold StringInStringSlice. destruct (existsb _ _); [done|].
  rewrite state_andReturn. by apply Invalid_Consistent.
Qed.

Lemma restored_Consistent p r :
  Resolvable p -> Consistent (state r) -> Consistent (state (restored p r)).
Proof.
  intros Hp H. destruct r; simpl in *; by apply Consistent_setCurrentPath.
Qed.

Lemma With_Consistent wrap i :
  (forall i, Consistent i -> Consistent (state (wrap i))) ->
  Consistent i -> Consistent (state (With wrap i)).
Proof.
  intros Hw H. rewrite With_restored.
  apply restored_Consistent; [apply H|by apply Hw].
Qed.

Lemma WithField_Consistent fieldName wrap i :
  (forall i, Consistent i -> Consistent (state (wrap i))) ->
  Consistent i -> Consistent (state (WithField fieldName wrap i)).
Proof.
  intros Hw H. destruct (DownField (currentPath i) fieldName) as [p|] eqn:Hd.
  - rewrite (WithField_Some _ _ _ _ Hd).
    apply restored_Consistent; [apply H|]. apply Hw.
    apply Consistent_setCurrentPath; [|done].
    eapply Resolvable_DownField; [apply H|done].
  - by rewrite (WithField_None _ _ _ Hd).
Qed.

Lemma WithIndex_Consistent index wrap i :
  (forall i, Consistent i -> Consistent (state (wrap i))) ->
  Consistent i -> Consistent (state (WithIndex index wrap i)).
Proof.
  intros Hw H. rewrite WithIndex_restored.
  apply restored_Consistent; [apply H|]. apply Hw.
  apply Consistent_setCurrentPath; [|done].
  apply Resolvable_DownIndex, H.
Qed.

Lemma sequence_Consistent (f : Op -> Is -> result unit) ops :
  Forall (fun op => forall i, Consistent i -> Consistent (state (f op i))) ops ->
  forall i, Consistent i -> Consistent (state (sequence f ops i)).
Proof.
  induction 1 as [|op ops Hop _ IH]; intros i Hi; simpl; [done|].
  specialize (Hop i Hi). destruct (f op i); [by apply IH|done].
Qed.

(** Induction on the tree of calls. *)
Lemma Op_nested_ind (P : Op -> Prop) :
  (forall op,
     match op with
     | CallWith wrap | CallWithField _ wrap | CallWithIndex _ wrap => Forall P wrap
     | Recover body => Forall P body
     | _ => Logic.True
     end -> P op) ->
  forall op, P op.
Proof.
  intros H. fix IH 1. intros op. apply H.
  destruct op as [| | | | | | | | | | | | | | |wrap|? wrap|? wrap|body];
    try exact I.
  all: match goal with
       | |- Forall _ ?l => induction l; constructor; [apply IH|assumption]
       end.
Qed.

#[local] Hint Resolve Invalid_Consistent True'_Consistent False'_Consistent
  Required_Consistent IntBetween_Consistent StringLengthBetween_Consistent
  StringInStringSlice_Consistent With_Consistent WithField_Consistent
  WithIndex_Consistent sequence_Consistent : consistent.

Lemma call_Consistent op :
  forall i, Consistent i -> Consistent (state (call op i)).
Proof.
  induction op as [op IH] using Op_nested_ind. intros i Hi.
  destruct op; simpl; rewrite ?state_andReturn;
    unfold IntGreaterThan, IntLessThan, IntGreaterThanOrEqual,
      IntLessThanOrEqual, StringLengthGreaterThan, StringLengthLessThan,
      StringLengthGreaterThanOrEqual, StringLengthLessThanOrEqual;
    eauto with consistent.
Qed.

Lemma run_Consistent ops i :
  Consistent i -> Consistent (state (run ops i)).
Proof.
  apply sequence_Consistent, Forall_forall. intros op _. apply call_Consistent.
Qed.

(** C10: after any sequence of operations on an [Is] that starts
    consistent (as [NewRoot()] and the zero value do), the number of
    errors stored in the tree is the number of calls of [Invalid], and
    [Len()] is that number as an [int]: the number itself as long as it
    fits in an [int].  [HasErrors()] reads the counter only, is true if
    and only if the number is not zero, and agrees with the walk of
    [ErrorNode.HasErrors] over the tree. *)
Theorem Len_counts_recorded_errors ops i0 :
  Consistent i0 ->
  let i := state (run ops i0) in
  Node.totalErrors (Errors i) = length (recorded i)
  /\ HasErrors i = negb (bool_decide (Len i = 0))
  /\ Len i = int_wrap (Z.of_nat (length (recorded i)))
  /\ (Z.of_nat (length (recorded i)) <= strconv.maxInt ->
      Len i = Z.of_nat (length (recorded i))
      /\ Len i = Z.of_nat (Node.totalErrors (Errors i))
      /\ (HasErrors i = true <-> length (recorded i) <> 0%nat)
      /\ HasErrors i = Node.HasErrors (Errors i)).
Proof.
  intros H0 i. destruct (run_Consistent ops i0 H0) as (_ & Ht & Hc).
  fold i in Ht, Hc. split; [done|]. split; [done|]. split; [done|].
  intros Hfit.
  assert (HasErrors i = true <-> length (recorded i) <> 0%nat) as Hhas.
  { unfold HasErrors. rewrite Hc.
    rewrite int_wrap_small by (unfold strconv.minInt; lia).
    rewrite negb_true_iff, bool_decide_eq_false. lia. }
  unfold Len. rewrite Hc, Ht.
  rewrite int_wrap_small by (unfold strconv.minInt; lia).
  split; [done|]. split; [done|]. split; [done|].
  apply Bool.eq_iff_eq_true. by rewrite Hhas, HasErrors_totalErrors, Ht.
Qed.

Lemma Len_counts_recorded_errors_witness :
  let i := state (run [CallWithField (str "a") [CallRequired false];
                       CallInvalid ShouldBeTrueErr] NewRoot) in
  Len i = Z.of_nat (length (recorded i))
  /\ Len i = Z.of_nat (Node.totalErrors (Errors i))
  /\ (HasErrors i = true <-> length (recorded i) <> 0%nat)
  /\ HasErrors i = Node.HasErrors (Errors i).
Proof.
  apply (Len_counts_recorded_errors
           [CallWithField (str "a") [CallRequired false];
            CallInvalid ShouldBeTrueErr] NewRoot Consistent_NewRoot).
  by vm_compute.
Defined.

End CallFacts.

(** ** Equality of nodes and queries by path *)

Section NodeFacts.

Lemma elem_of_removeVisited e l i :
  i ∈ Node.removeVisited e l <-> i ∈ l /\ ifaces.IsEqual e i = false.
Proof.
  induction l as [|j l IH]; simpl.
  - split; [by intros ?%elem_of_nil|by intros [?%elem_of_nil _]].
  - destruct (ifaces.IsEqual e j) eqn:E.
    + rewrite IH, elem_of_cons. split; [tauto|].
      intros [[->|?] ?]; [congruence|tauto].
    + rewrite !elem_of_cons, IH. split; [|tauto].
      intros [->|[? ?]]; tauto.
Qed.

Lemma elem_of_removeVisited_all nerrs l i :
  i ∈ foldl (fun l e => Node.removeVisited e l) l nerrs
  <-> i ∈ l /\ forall e, e ∈ nerrs -> ifaces.IsEqual e i = false.
Proof.
  revert l. induction nerrs as [|e nerrs IH]; intros l; simpl.
  - split; [|tauto]. intros ?. split; [done|]. by intros ? ?%elem_of_nil.
  - rewrite IH, elem_of_removeVisited. split.
    + intros [[? ?] Hall]. split; [done|].
      intros e' [->|?]%elem_of_cons; [done|by apply Hall].
    + intros [? Hall]. split; [split; [done|]|].
      * apply Hall. by left.
      * intros e' ?. apply Hall. by right.
Qed.

Lemma PushFront_all (oerrs : list ValidateError) i :
  i ∈ foldl (fun l e => e :: l) [] oerrs <-> i ∈ oerrs.
Proof.
  assert (forall acc, i ∈ foldl (fun l e => e :: l) acc oerrs
                      <-> i ∈ oerrs \/ i ∈ acc) as H.
  { induction oerrs as [|o oerrs IH]; intros acc; simpl.
    - split; [tauto|]. by intros [?%elem_of_nil|?].
    - rewrite IH, !elem_of_cons. tauto. }
  rewrite H. split; [|tauto]. by intros [?|?%elem_of_nil].
Qed.

(** What the comparison of the local errors decides: the lists are
    equally long and every error of the other node is equal to some
    error of the receiver.  How often an error occurs plays no part. *)
Lemma errsEqual_true nerrs oerrs :
  Node.errsEqual nerrs oerrs = true <->
  length nerrs = length oerrs
  /\ forall i, i ∈ oerrs -> exists e, e ∈ nerrs /\ ifaces.IsEqual e i = true.
Proof.
  unfold Node.errsEqual. case_bool_decide as Hlen; simpl; [|split; [done|tauto]].
  rewrite bool_decide_eq_true, length_zero_iff_nil. split.
  - intros Hnil. split; [done|]. intros i Hi.
    destruct (decide (Exists (fun e => ifaces.IsEqual e i = true) nerrs)) as [F|F].
    + apply Exists_exists in F as (e & He & Hne). eauto.
    + exfalso. eapply (not_elem_of_nil i). rewrite <- Hnil.
      apply elem_of_removeVisited_all. split; [by apply PushFront_all|].
      intros e He. destruct (ifaces.IsEqual e i) eqn:E; [|done].
      destruct F. apply Exists_exists. eauto.
  - intros [_ H]. apply elem_of_nil_inv. intros i.
    rewrite elem_of_removeVisited_all, PushFront_all.
    intros [Hi Hall]. destruct (H i Hi) as (e & He & E).
    by rewrite (Hall e He) in E.
Qed.

Lemma IsEqual_simple_eq v e :
  ifaces.IsEqual (SimpleValidateError v) e = true -> e = SimpleValidateError v.
Proof.
  destruct e as [t|]; simpl; [|done]. by intros ->%bool_decide_eq_true.
Qed.

(** C1: on a node with the local errors [X, X, Y] and a node with the
    local errors [X, Y, Y], which have no perfect one-to-one matching,
    [IsEqual] returns [true]: the scan for the first [X] removes the one
    [X] of the other list, the scan for [Y] removes both its [Y]s, and
    nothing is left. *)
Theorem IsEqual_ignores_multiplicity :
  let X := SimpleValidateError (str "X") in
  let Y := SimpleValidateError (str "Y") in
  Node.IsEqual (leaf [X; X; Y]) (leaf [X; Y; Y]) = Some true
  /\ ~ matched [X; X; Y] [X; Y; Y].
Proof.
  intros X Y. split; [by vm_compute|].
  intros (l & Hperm & Hall).
  apply Forall2_cons_inv_l in Hall as (x1 & l1 & E1 & Hall & ->).
  apply Forall2_cons_inv_l in Hall as (x2 & l2 & E2 & Hall & ->).
  apply Forall2_cons_inv_l in Hall as (y1 & l3 & E3 & Hall & ->).
  apply Forall2_nil_inv_l in Hall as ->.
  apply IsEqual_simple_eq in E1 as ->. apply IsEqual_simple_eq in E2 as ->.
  apply IsEqual_simple_eq in E3 as ->.
  apply Permutation_cons_inv in Hperm.
  assert (SimpleValidateError (str "X") ∈ [Y; Y]) as Hin.
  { rewrite Hperm. by left. }
  set_unfold. by destruct Hin as [|[|]].
Qed.

(** The comparison is not even symmetric. *)
Lemma IsEqual_not_symmetric :
  let X := SimpleValidateError (str "X") in
  let Y := SimpleValidateError (str "Y") in
  let Z := SimpleValidateError (str "Z") in
  Node.IsEqual (leaf [X; Y; Z]) (leaf [X; X; X]) = Some true
  /\ Node.IsEqual (leaf [X; X; X]) (leaf [X; Y; Z]) = Some false.
Proof. split; by vm_compute. Qed.

(** C7: in the tree that [DownField("a").DownField("b").DownIndex(3)]
    and [Add(X)] build from an empty root, the node at the components
    [a], [b], [3] exists and holds [X]; yet [HasErrorAt] of
    [root.DownField("a").DownField("b").DownIndex(3)] returns [false],
    because [EachComponent] reports the index as 0. *)
Theorem HasErrorAt_below_first_segment :
  let X := SimpleValidateError (str "X") in
  let tree :=
    Node.root (Node.Add X (Node.DownIndex 3 (Node.DownField (str "b")
      (Node.DownField (str "a") (Node.atRoot Node.NewErrorNode))))) in
  DownField NewPath (str "a") = Some (str "/a")
  /\ DownField (str "/a") (str "b") = Some (str "/a/b")
  /\ DownIndex (str "/a/b") 3 = str "/a/b[3]"
  /\ (exists n,
        navigate [FieldC (str "a"); FieldC (str "b"); IndexC 3] tree = Some n
        /\ errs n = Some [X])
  /\ Node.HasErrorAt tree (str "/a/b[3]") = Some false.
Proof.
  intros X tree. repeat split; try by vm_compute.
  eexists. split; by vm_compute.
Qed.

(** Apart from the values of the components, [HasErrorAt] does what the
    specification says: it follows the components that [EachComponent]
    reports, answers [false] when a child is missing, and otherwise
    looks at the local errors of the node it reached. *)
Lemma replay_log parts log :
  Forall (fun part => is_Some (Index part)) parts ->
  replay parts (logField (fun _ => true)) (logIndex (fun _ => true)) log
  = (log ++ map componentOf parts, Some true).
Proof.
  intros H. revert log.
  induction H as [|part parts [x Hx] _ IH]; intros log; simpl.
  - by rewrite app_nil_r.
  - unfold componentOf at 1. destruct (IsArrayElement part).
    + rewrite Hx. simpl. by rewrite IH, <- app_assoc.
    + simpl. by rewrite IH, <- app_assoc.
Qed.

Lemma components_parts p :
  Resolvable p ->
  components p = map componentOf (rev (ancestors (length p) p)).
Proof.
  intros H. unfold components, EachComponent.
  by rewrite replay_log by (by apply Forall_rev).
Qed.

(** [EachComponent] calls the callbacks in the order of the components,
    stops after the first call that answers [false] and then returns
    [false]; it returns [true] when every call answered [true]. *)
Lemma replay_visited ok parts log :
  Forall (fun part => is_Some (Index part)) parts ->
  replay parts (logField ok) (logIndex ok) log
  = (log ++ visited ok (map componentOf parts),
     Some (forallb ok (map componentOf parts))).
Proof.
  intros H. revert log.
  induction H as [|part parts [x Hx] _ IH]; intros log; simpl.
  - by rewrite app_nil_r.
  - assert (componentOf part
            = if IsArrayElement part then IndexC x
              else FieldC (FieldName part)) as ->.
    { unfold componentOf. by rewrite Hx. }
    destruct (IsArrayElement part).
    + rewrite Hx. unfold logIndex at 1. destruct (ok (IndexC x)); [|done].
      by rewrite IH, <- app_assoc.
    + unfold logField at 1. destruct (ok (FieldC (FieldName part))); [|done].
      by rewrite IH, <- app_assoc.
Qed.

Lemma EachComponent_visited ok p :
  Resolvable p ->
  EachComponent p (logField ok) (logIndex ok) []
  = (visited ok (components p), Some (forallb ok (components p))).
Proof.
  intros H. rewrite (components_parts p H). unfold EachComponent.
  by rewrite replay_visited by (by apply Forall_rev).
Qed.

Lemma replay_navigate parts n :
  Forall (fun part => is_Some (Index part)) parts ->
  let r :=
    replay parts
      (fun fieldName current =>
         match Node.lookupNamed current fieldName with
         | None => (current, false)
         | Some c => (c, true)
         end)
      (fun index current =>
         match Node.lookupNumbered current index with
         | None => (current, false)
         | Some c => (c, true)
         end) n in
  match navigate (map componentOf parts) n with
  | Some m => r = (m, Some true)
  | None => snd r = Some false
  end.
Proof.
  intros H. revert n.
  induction H as [|part parts [x Hx] _ IH]; intros n; simpl; [done|].
  unfold componentOf at 1. destruct (IsArrayElement part).
  - rewrite Hx. simpl.
    destruct (Node.lookupNumbered n x) as [c|]; [apply IH|done].
  - destruct (Node.lookupNamed n (FieldName part)) as [c|]; [apply IH|done].
Qed.

Lemma HasErrorAt_navigate n p :
  Resolvable p ->
  Node.HasErrorAt n p
  = Some match navigate (components p) n with
         | Some m => negb (bool_decide (length (default [] (errs m)) = 0%nat))
         | None => false
         end.
Proof.
  intros H. rewrite (components_parts p H).
  unfold Node.HasErrorAt, Node.traverseTo, EachComponent.
  pose proof (replay_navigate (rev (ancestors (length p) p)) n
                ltac:(by apply Forall_rev)) as Hnav.
  simpl in Hnav.
  destruct (navigate _ n) as [m|].
  - by rewrite Hnav.
  - destruct (replay _ _ _ n) as [current completed]. simpl in Hnav.
    by subst completed.
Qed.

End NodeFacts.
